(** * ARIDE sine generator: DAC lookup table and timer-driven playback

    A shallow embedding of [src/singen/singen.ino] (the interrupt-driven
    generator, [Module SinGen]) and of the second sketch of the repository
    ([src/unnamed/part_000], the busy-loop generator, [Module BusyLoop]),
    with the properties the specification states about them.

    The sketches compute with C++ [float] and [double].  [Module IEEE]
    models these as rationals that are rounded to nearest (ties to even)
    after every operation, with infinities and NaN; conversions to an
    integer type are partial, since C++ leaves them undefined when the
    truncated value does not fit.  What the sketches print on the serial
    port is left out, and so is the [delay] that ends a pass of [loop]. *)

From Stdlib Require Import ZArith QArith Qround Qpower Qabs Qreduction.
From Stdlib Require Import SpecFloat List Bool Lia Lqa.
Import ListNotations.

Open Scope Z_scope.

(** ** Binary floating point over the rationals *)

Module IEEE.

(** A value of a floating-point type.  Zeros are not signed: the sketches
    never divide by a negative zero. *)
Inductive fp : Type :=
| NaN
| Inf (neg : bool)
| Fin (q : Q).

Record format : Type := { prec : Z; emax : Z }.

Definition binary32 : format := {| prec := 24; emax := 128 |}.
Definition binary64 : format := {| prec := 53; emax := 1024 |}.

(** Exponent of the least subnormal: -149 for [float], -1074 for [double]. *)
Definition emin (f : format) : Z := 3 - emax f - prec f.

Definition pow2 (e : Z) : Q := (2 ^ e)%Q.

(** [ilog2 x] is the integer [k] with [2^k <= x < 2^(k+1)], for [0 < x]. *)
Definition ilog2 (x : Q) : Z :=
  let k := Z.log2 (Qnum x) - Z.log2 (Zpos (Qden x)) in
  if Qle_bool (pow2 k) x then k else k - 1.

(** Nearest integer, ties to even. *)
Definition rne (x : Q) : Z :=
  let f := Qfloor x in
  match (x - inject_Z f ?= 1 # 2)%Q with
  | Lt => f
  | Gt => f + 1
  | Eq => if Z.even f then f else f + 1
  end.

(** Exponent of the unit in the last place of [x] in format [f]. *)
Definition cexp (f : format) (x : Q) : Z :=
  Z.max (ilog2 (Qabs x) - prec f + 1) (emin f).

(** Rounding to nearest even with gradual underflow and unbounded range. *)
Definition roundQ (f : format) (x : Q) : Q :=
  let e := cexp f x in
  Qred (inject_Z (rne (x / pow2 e)) * pow2 e).

Definition Qneg (x : Q) : bool := negb (Qle_bool 0 x).

(** Rounding into the format: results of magnitude [2^emax] or more
    overflow to an infinity. *)
Definition round (f : format) (x : Q) : fp :=
  let r := roundQ f x in
  if Qle_bool (pow2 (emax f)) (Qabs r) then Inf (Qneg r) else Fin r.

Definition fmul (f : format) (a b : fp) : fp :=
  match a, b with
  | NaN, _ | _, NaN => NaN
  | Inf s, Inf t => Inf (xorb s t)
  | Inf s, Fin q | Fin q, Inf s =>
      if Qeq_bool q 0 then NaN else Inf (xorb s (Qneg q))
  | Fin x, Fin y => round f (x * y)
  end.

Definition fdiv (f : format) (a b : fp) : fp :=
  match a, b with
  | NaN, _ | _, NaN => NaN
  | Inf _, Inf _ => NaN
  | Inf s, Fin q => Inf (xorb s (Qneg q))
  | Fin _, Inf _ => Fin 0
  | Fin x, Fin y =>
      if Qeq_bool y 0
      then if Qeq_bool x 0 then NaN else Inf (Qneg x)
      else round f (x / y)
  end.

(** [a <= b] and [a >= b] of C++: false as soon as one side is NaN. *)
Definition fle (a b : fp) : bool :=
  match a, b with
  | NaN, _ | _, NaN => false
  | Inf true, _ | _, Inf false => true
  | Inf false, _ | _, Inf true => false
  | Fin x, Fin y => Qle_bool x y
  end.

Definition fge (a b : fp) : bool := fle b a.

(** A literal or an integer converted to the format. *)
Definition of_Q (f : format) (x : Q) : fp := round f x.
Definition of_Z (f : format) (z : Z) : fp := round f (inject_Z z).

(** Truncation toward zero. *)
Definition Qtrunc (x : Q) : Z :=
  if Qle_bool 0 x then Qfloor x else Qceiling x.

(** [(uint64_t) a]: defined when the truncated value fits in 64 bits. *)
Definition to_uint64 (a : fp) : option Z :=
  match a with
  | Fin q =>
      let t := Qtrunc q in
      if (0 <=? t) && (t <? 2 ^ 64) then Some t else None
  | _ => None
  end.

(** Modelled from the spec: [round] comes from the Arduino core, which is
    not under src/; the spec's rounding to the nearest code is taken as
    rounding to the nearest integer with halves away from zero, converted
    to a 32-bit [long], which is what both the core's macro and the C
    library's function of that name compute. *)
Definition c_round (a : fp) : option Z :=
  match a with
  | Fin q =>
      let r := if Qle_bool 0 q then Qfloor (q + (1 # 2)) else Qceiling (q - (1 # 2)) in
      if (- 2 ^ 31 <=? r) && (r <? 2 ^ 31) then Some r else None
  | _ => None
  end.

(** Addition, for the second sketch. *)
Definition fadd (f : format) (a b : fp) : fp :=
  match a, b with
  | NaN, _ | _, NaN => NaN
  | Inf s, Inf t => if Bool.eqb s t then Inf s else NaN
  | Inf s, Fin _ | Fin _, Inf s => Inf s
  | Fin x, Fin y => round f (x + y)
  end.

(** The members of the format, overflow apart: [m * 2^e] with a mantissa
    of at most [prec] bits and an exponent not below [emin]. *)
Definition representable (f : format) (x : Q) : Prop :=
  exists m e : Z,
    emin f <= e /\ Z.abs m < 2 ^ prec f /\ (x == inject_Z m * pow2 e)%Q.

End IEEE.

Import IEEE.

(** *** Running the model beside the standard library's

    [SpecFloat] specifies IEEE 754 arithmetic on pairs of a mantissa and an
    exponent.  [of_spec] reads such a value as an [fp], so that the two
    models can be run on the same operands. *)
Definition of_spec (x : spec_float) : fp :=
  match x with
  | S754_zero _ => Fin 0
  | S754_infinity s => Inf s
  | S754_nan => NaN
  | S754_finite s m e =>
      Fin (Qred ((if s then - (1) else 1) * inject_Z (Zpos m) * pow2 e))
  end.

Definition fp_eqb (a b : fp) : bool :=
  match a, b with
  | NaN, NaN => true
  | Inf s, Inf t => Bool.eqb s t
  | Fin x, Fin y => Qeq_bool x y
  | _, _ => false
  end.

(** On the operands [m1 * 2^e1] and [m2 * 2^e2]: both models round them to
    the same [float] and [double], and give the same [float] product and
    the same [double] quotient. *)
Definition agree (t : Z * Z * Z * Z) : bool :=
  let '(m1, e1, m2, e2) := t in
  let a := (inject_Z m1 * pow2 e1)%Q in
  let b := (inject_Z m2 * pow2 e2)%Q in
  let a32 := binary_normalize 24 128 m1 e1 false in
  let b32 := binary_normalize 24 128 m2 e2 false in
  let a64 := binary_normalize 53 1024 m1 e1 false in
  let b64 := binary_normalize 53 1024 m2 e2 false in
  fp_eqb (of_spec a32) (round binary32 a) &&
  fp_eqb (of_spec a64) (round binary64 a) &&
  fp_eqb (of_spec (SFmul 24 128 a32 b32))
         (fmul binary32 (round binary32 a) (round binary32 b)) &&
  fp_eqb (of_spec (SFdiv 53 1024 a64 b64))
         (fdiv binary64 (round binary64 a) (round binary64 b)).

Definition operands : list (Z * Z * Z * Z) :=
  [ (1000000, 0, 25600, 0); (1000000, 0, 6400, 0); (1000000, 0, 5120000, 0);
    (1000000, 0, 3, -40); (1, 0, 3, 0); (33, 0, 10, 0); (10922667, -15, 3, 0);
    (7, -3, 1234567, -170); (1, -1074, 3, 0); (1, 1000, 3, -100);
    (-5, -1070, 7, 0); (123456789123456789, 10, 3, 0); (1, 0, 3, -120);
    (3, -150, 1, 0); (5, -151, 1, 0); (1, -1075, 1, 0); (3, -1075, 1, 0);
    (16777217, 0, 16777219, 0); (-16777215, 104, 3, 1) ].

(** The same for the [double] sum of the two operands. *)
Definition agree_sum (t : Z * Z * Z * Z) : bool :=
  let '(m1, e1, m2, e2) := t in
  let a := (inject_Z m1 * pow2 e1)%Q in
  let b := (inject_Z m2 * pow2 e2)%Q in
  let a64 := binary_normalize 53 1024 m1 e1 false in
  let b64 := binary_normalize 53 1024 m2 e2 false in
  fp_eqb (of_spec (SFadd 53 1024 a64 b64))
         (fadd binary64 (round binary64 a) (round binary64 b)).

(** ** Outcomes of a run

    A function of the sketch returns normally, runs into behaviour C++
    leaves undefined (a floating-point value converted to an integer type
    that cannot hold it), or never returns ([setup] spins in [while(1)]
    when no timer could be allocated). *)

Inductive result (A : Type) : Type :=
| Ok (a : A)
| Undefined
| Hang.

Arguments Ok {A} a.
Arguments Undefined {A}.
Arguments Hang {A}.

Definition bind {A B : Type} (r : result A) (k : A -> result B) : result B :=
  match r with
  | Ok a => k a
  | Undefined => Undefined
  | Hang => Hang
  end.

Definition defined {A : Type} (o : option A) : result A :=
  match o with
  | Some a => Ok a
  | None => Undefined
  end.

Notation "x <- e ;; k" := (bind e (fun x => k))
  (at level 61, e at next level, right associativity).

(** ** The interrupt-driven generator, [src/singen/singen.ino] *)

Module SinGen.

(** Modelled from the spec: the angle of sample [i] is [2 pi i / N]; the
    macro [PI] of the sketch comes from the Arduino core, which is not
    under src/, and is taken as the [double] nearest to pi. *)
Definition PI : fp :=
  of_Q binary64 (31415926535897932384626433832795 # 10000000000000000000000000000000).

(** A [double] stored in a [float], as in [const float V_REF = 3.3;]. *)
Definition to_float (a : fp) : fp :=
  match a with
  | Fin q => round binary32 q
  | _ => a
  end.

Definition V_REF : fp := to_float (of_Q binary64 (33 # 10)).
Definition V_OUT_PEAK_TO_PEAK : fp := to_float (Fin 1).
Definition V_OUT_OFFSET : fp := to_float (fdiv binary64 V_REF (Fin 2)).

(** Modelled from the spec: the timer service belongs to the Arduino core,
    which is not under src/.  As in the spec's periodic timer service, a
    timer holds the alarm last programmed with [timerAlarm] (period,
    auto-reload, initial count) and calls [onTimer] at that period while
    the callback is attached. *)
Record alarm_t : Type := Alarm {
  alarm_value : Z;
  autoreload : bool;
  reload_count : Z
}.

Record hw_timer_t : Type := Timer {
  attached : bool;
  alarm : option alarm_t
}.

(** The globals of the sketch, and the codes written to the DAC so far
    (oldest first). *)
Record state : Type := State {
  sineLUT : list Z;
  lutIndex : Z;
  timer : option hw_timer_t;
  targetFrequency : fp;
  updatePeriodMicros : Z;
  updateFrequency : bool;
  dac : list Z
}.

Definition set_sineLUT (l : list Z) (s : state) : state :=
  State l (lutIndex s) (timer s) (targetFrequency s) (updatePeriodMicros s)
    (updateFrequency s) (dac s).
Definition set_lutIndex (i : Z) (s : state) : state :=
  State (sineLUT s) i (timer s) (targetFrequency s) (updatePeriodMicros s)
    (updateFrequency s) (dac s).
Definition set_timer (t : option hw_timer_t) (s : state) : state :=
  State (sineLUT s) (lutIndex s) t (targetFrequency s) (updatePeriodMicros s)
    (updateFrequency s) (dac s).
Definition set_targetFrequency (x : fp) (s : state) : state :=
  State (sineLUT s) (lutIndex s) (timer s) x (updatePeriodMicros s)
    (updateFrequency s) (dac s).
Definition set_updatePeriodMicros (p : Z) (s : state) : state :=
  State (sineLUT s) (lutIndex s) (timer s) (targetFrequency s) p
    (updateFrequency s) (dac s).
Definition set_updateFrequency (b : bool) (s : state) : state :=
  State (sineLUT s) (lutIndex s) (timer s) (targetFrequency s)
    (updatePeriodMicros s) b (dac s).

(** Modelled from the spec: [dacWrite(DAC_PIN, value)] is the spec's output
    sink [write(code: uint8)] on the one pin the sketch uses; the value is
    taken as a [uint8_t]. *)
Definition dacWrite (value : Z) (s : state) : state :=
  State (sineLUT s) (lutIndex s) (timer s) (targetFrequency s)
    (updatePeriodMicros s) (updateFrequency s) (dac s ++ [value mod 256]).

Definition on_timer (g : hw_timer_t -> hw_timer_t) (s : state) : state :=
  set_timer (option_map g (timer s)) s.

Definition timerAttachInterrupt : state -> state :=
  on_timer (fun t => Timer true (alarm t)).
Definition timerDetachInterrupt : state -> state :=
  on_timer (fun t => Timer false (alarm t)).
Definition timerAlarm (value : Z) (reload : bool) (count : Z) : state -> state :=
  on_timer (fun t => Timer (attached t) (Some (Alarm value reload count))).

Section Sketch.

(** [LUT_SIZE] is a compile-time constant of the sketch (256); it is a
    parameter here so that statements can range over table sizes.  [c_sin]
    is the C library's [sin] on [double]. *)
Variable LUT_SIZE : Z.
Variable c_sin : fp -> fp.

(** [sineLUT[lutIndex]] *)
Definition sampleAt (lut : list Z) (i : Z) : Z := nth (Z.to_nat i) lut 0.

(** The interrupt service routine. *)
Definition onTimer (s : state) : state :=
  let s := dacWrite (sampleAt (sineLUT s) (lutIndex s)) s in
  let s := set_lutIndex (lutIndex s + 1) s in
  if lutIndex s >=? LUT_SIZE then set_lutIndex 0 s else s.

(** The three [const float] of the envelope are compile-time constants
    of the sketch too.  The functions that read them come in two steps:
    first with the constants as arguments ([v_ref], [v_out_peak_to_peak],
    [v_out_offset]), so that statements can range over envelopes, then
    at the constants of the sketch. *)

(** [round((V_OUT_OFFSET / V_REF) * 255.0)] *)
Definition offset_code_of (v_out_offset v_ref : fp) : result Z :=
  defined (c_round (fmul binary64 (fdiv binary32 v_out_offset v_ref) (Fin 255))).

Definition offset_code : result Z := offset_code_of V_OUT_OFFSET V_REF.

(** [round(((V_OUT_PEAK_TO_PEAK / 2.0) / V_REF) * 255.0)] *)
Definition amplitude_code_of (v_out_peak_to_peak v_ref : fp) : result Z :=
  defined (c_round
    (fmul binary64
       (fdiv binary64 (fdiv binary64 v_out_peak_to_peak (Fin 2)) v_ref)
       (Fin 255))).

Definition amplitude_code : result Z := amplitude_code_of V_OUT_PEAK_TO_PEAK V_REF.

(** [sin(2.0 * PI * (float)i / (float)LUT_SIZE)], stored in a [float]. *)
Definition sine_value (i : Z) : fp :=
  to_float
    (c_sin
       (fdiv binary64
          (fmul binary64 (fmul binary64 (Fin 2) PI) (of_Z binary32 i))
          (of_Z binary32 LUT_SIZE))).

(** The body of the loop of [generateSineLUT]: the code stored at index [i]. *)
Definition lut_entry (offset_dac amplitude_dac i : Z) : result Z :=
  r <- defined (c_round (fmul binary32 (of_Z binary32 amplitude_dac) (sine_value i))) ;;
  let dac_value := offset_dac + r in
  let dac_value :=
    if dac_value <? 0 then 0
    else if dac_value >? 255 then 255
    else dac_value in
  Ok (dac_value mod 256).

(** [sineLUT[i] = v] *)
Fixpoint store (i : nat) (v : Z) (lut : list Z) : list Z :=
  match lut, i with
  | [], _ => []
  | _ :: t, O => v :: t
  | h :: t, S j => h :: store j v t
  end.

(** [for (int i = ...; i < LUT_SIZE; i++)], with [n] iterations left. *)
Fixpoint fill_from (offset_dac amplitude_dac : Z) (n : nat) (i : Z) (lut : list Z)
  : result (list Z) :=
  match n with
  | O => Ok lut
  | S k =>
      v <- lut_entry offset_dac amplitude_dac i ;;
      fill_from offset_dac amplitude_dac k (i + 1) (store (Z.to_nat i) v lut)
  end.

Definition fill (offset_dac amplitude_dac : Z) (lut : list Z) : result (list Z) :=
  fill_from offset_dac amplitude_dac (Z.to_nat LUT_SIZE) 0 lut.

Definition generateSineLUT_of (v_ref v_out_peak_to_peak v_out_offset : fp) (s : state)
  : result state :=
  offset_dac <- offset_code_of v_out_offset v_ref ;;
  amplitude_dac <- amplitude_code_of v_out_peak_to_peak v_ref ;;
  lut <- fill offset_dac amplitude_dac (sineLUT s) ;;
  Ok (set_sineLUT lut s).

Definition generateSineLUT (s : state) : result state :=
  generateSineLUT_of V_REF V_OUT_PEAK_TO_PEAK V_OUT_OFFSET s.

(** The timer counts at 1 MHz, so periods are in microseconds. *)
Definition calculateUpdatePeriod (freq : fp) : result Z :=
  if fle freq (Fin 0) || (LUT_SIZE <=? 0) then Ok 0
  else
    period <- defined (to_uint64
      (fdiv binary64 (Fin 1000000) (fmul binary32 freq (of_Z binary32 LUT_SIZE)))) ;;
    Ok (if period >? 0 then period else 1).

(** [timerBegin(1000000)] yields a timer or NULL; [tb] is what it returns. *)
Definition setup (tb : option hw_timer_t) (s : state) : result state :=
  s <- generateSineLUT s ;;
  let s := set_timer tb s in
  match timer s with
  | None => Hang
  | Some _ =>
      let s := timerAttachInterrupt s in
      p <- calculateUpdatePeriod (targetFrequency s) ;;
      let s := set_updatePeriodMicros p s in
      if updatePeriodMicros s >? 0
      then Ok (timerAlarm (updatePeriodMicros s) true 0 s)
      else Ok (timerDetachInterrupt s)
  end.

(** The block of [loop] guarded by [updateFrequency]. *)
Definition reconfigure (s : state) : result state :=
  let s := timerDetachInterrupt s in
  p <- calculateUpdatePeriod (targetFrequency s) ;;
  let s := set_updatePeriodMicros p s in
  s <- (if updatePeriodMicros s >? 0
        then
          let s := timerAlarm (updatePeriodMicros s) true 0 s in
          Ok (timerAttachInterrupt s)
        else
          code <- offset_code ;;
          Ok (dacWrite code s)) ;;
  Ok (set_updateFrequency false s).

(** One pass of [loop].  [input] is [None] when no line is waiting on the
    serial port, and the value [toFloat] gives for the line otherwise. *)
Definition loop (input : option fp) (s : state) : result state :=
  let s :=
    match input with
    | Some newFreq =>
        if fge newFreq (Fin 0)
        then set_updateFrequency true (set_targetFrequency newFreq s)
        else s
    | None => s
    end in
  if updateFrequency s then reconfigure s else Ok s.

(** The timer interrupt: the routine runs when it is attached and an alarm
    is programmed, and nothing happens otherwise. *)
Definition running (s : state) : bool :=
  match timer s with
  | Some t => attached t && match alarm t with Some _ => true | None => false end
  | None => false
  end.

Definition tick (s : state) : state :=
  if running s then onTimer s else s.

(** What happens after [setup]: timer interrupts and passes of [loop]. *)
Inductive event : Type :=
| Tick
| Loop (input : option fp).

Definition step (e : event) (s : state) : result state :=
  match e with
  | Tick => Ok (tick s)
  | Loop input => loop input s
  end.

Fixpoint run (es : list event) (s : state) : result state :=
  match es with
  | [] => Ok s
  | e :: es => s <- step e s ;; run es s
  end.

End Sketch.

(** The globals as the sketch initialises them. *)
Definition initial (LUT_SIZE : Z) : state :=
  {| sineLUT := repeat 0 (Z.to_nat LUT_SIZE);
     lutIndex := 0;
     timer := None;
     targetFrequency := to_float (Fin 100);
     updatePeriodMicros := 0;
     updateFrequency := false;
     dac := [] |}.

End SinGen.

(** ** The busy-loop generator, [src/unnamed/part_000] *)

Module BusyLoop.

(** What the sketch does to the outside: a code written to the DAC, or a
    busy wait of so many microseconds. *)
Inductive action : Type :=
| Write (code : Z)
| Delay (micros : Z).

(** The table, the [static int index] of [loop], and the actions so far. *)
Record state : Type := State {
  sineLUT : list Z;
  index : Z;
  trace : list action
}.

Section Sketch.

(** The macros [LUT_SIZE] (64) and [FREQ_HZ] (100). *)
Variable LUT_SIZE : Z.
Variable FREQ_HZ : Z.

Definition int_range (z : Z) : bool := (- 2 ^ 31 <=? z) && (z <? 2 ^ 31).

(** [1000000 / (FREQ_HZ * LUT_SIZE)] on [int]: the product must not
    overflow and must not be zero. *)
Definition sample_delay : result Z :=
  let d := FREQ_HZ * LUT_SIZE in
  if int_range d && negb (d =? 0) then Ok (Z.quot 1000000 d) else Undefined.

Definition loop (s : state) : result state :=
  let s := State (sineLUT s) (index s)
             (trace s ++ [Write (nth (Z.to_nat (index s)) (sineLUT s) 0 mod 256)]) in
  if (LUT_SIZE =? 0) || negb (int_range (index s + 1)) then Undefined
  else
    let s := State (sineLUT s) (Z.rem (index s + 1) LUT_SIZE) (trace s) in
    us <- sample_delay ;;
    Ok (State (sineLUT s) (index s) (trace s ++ [Delay (us mod 2 ^ 32)])).

End Sketch.

Section Table.

(** [c_sin] is the C library's sine at the type of its argument. *)
Variable LUT_SIZE : Z.
Variable c_sin : fp -> fp.

(** [float angle = 2.0 * PI * i / LUT_SIZE;] *)
Definition angle (i : Z) : fp :=
  SinGen.to_float
    (fdiv binary64
       (fmul binary64 (fmul binary64 (Fin 2) SinGen.PI) (of_Z binary64 i))
       (of_Z binary64 LUT_SIZE)).

(** [float sine_val = (sin(angle) + 1.0) / 2.0;] *)
Definition sine_val (i : Z) : fp :=
  SinGen.to_float (fdiv binary64 (fadd binary64 (c_sin (angle i)) (Fin 1)) (Fin 2)).

(** [sineLUT[i] = round(sine_val * 255.0);] the value stored in a [byte]. *)
Definition lut_entry (i : Z) : result Z :=
  r <- defined (c_round (fmul binary64 (sine_val i) (Fin 255))) ;;
  Ok (r mod 256).

Fixpoint fill_from (n : nat) (i : Z) (lut : list Z) : result (list Z) :=
  match n with
  | O => Ok lut
  | S k =>
      v <- lut_entry i ;;
      fill_from k (i + 1) (SinGen.store (Z.to_nat i) v lut)
  end.

Definition generateSineLUT (s : state) : result state :=
  lut <- fill_from (Z.to_nat LUT_SIZE) 0 (sineLUT s) ;;
  Ok (State lut (index s) (trace s)).

(** [setup] fills the table; what it prints is left out. *)
Definition setup (s : state) : result state := generateSineLUT s.

End Table.

(** [n] passes of [loop] in a row. *)
Fixpoint passes (LUT_SIZE FREQ_HZ : Z) (n : nat) (s : state) : result state :=
  match n with
  | O => Ok s
  | S k => s <- loop LUT_SIZE FREQ_HZ s ;; passes LUT_SIZE FREQ_HZ k s
  end.

End BusyLoop.

(** ** Reference instances and invariants *)

(** An executable sine for running the sketch on concrete inputs: the
    argument is reduced to [[-pi, pi]], the Taylor polynomial of degree 27
    is evaluated in fixed point with 96 fractional bits, and the value is
    kept within [[-1, 1]] and rounded to [double]. *)
Definition pi_Q : Q :=
  31415926535897932384626433832795 # 10000000000000000000000000000000.

Definition fix_one : Z := 2 ^ 96.

Fixpoint sin_series (n : nat) (k : Z) (term acc x2 : Z) : Z :=
  match n with
  | O => acc
  | S n' =>
      let term' := - (term * x2 / fix_one) / ((2 * k + 2) * (2 * k + 3)) in
      sin_series n' (k + 1) term' (acc + term') x2
  end.

Definition unit_clamp (v : Q) : Q :=
  if Qle_bool v (- (1)) then (- (1))%Q else if Qle_bool 1 v then 1%Q else v.

Definition sin_ref (a : fp) : fp :=
  match a with
  | Fin q =>
      let turns := Qfloor (q / (2 * pi_Q) + (1 # 2)) in
      let r := Qfloor ((q - inject_Z turns * (2 * pi_Q)) * inject_Z fix_one) in
      let v := sin_series 13 0 r r (r * r / fix_one) in
      round binary64 (unit_clamp (inject_Z v / inject_Z fix_one))
  | _ => NaN
  end.

(** What the sketches assume of the library's sine: on a finite angle it
    is a finite number between -1 and 1. *)
Definition sine_like (c_sin : fp -> fp) : Prop :=
  forall q : Q, exists v : Q, c_sin (Fin q) = Fin v /\ (- (1) <= v <= 1)%Q.

(** A table of [LUT_SIZE] bytes. *)
Definition byte_table (LUT_SIZE : Z) (lut : list Z) : Prop :=
  length lut = Z.to_nat LUT_SIZE /\ Forall (fun v => 0 <= v < 256) lut.

(** The invariant of playback: the index is within the table. *)
Definition wf (LUT_SIZE : Z) (s : SinGen.state) : Prop :=
  0 <= SinGen.lutIndex s < LUT_SIZE /\ byte_table LUT_SIZE (SinGen.sineLUT s).

(** A frequency that is a positive number (or plus infinity). *)
Definition positive (x : fp) : bool :=
  match x with
  | Fin q => negb (Qle_bool q 0)
  | Inf neg => negb neg
  | NaN => false
  end.

(** No line of the serial port carries a positive frequency. *)
Definition no_positive (es : list SinGen.event) : Prop :=
  forall x, In (SinGen.Loop (Some x)) es -> positive x = false.

(** The frequency commands [loop] accepts among the events: the lines
    whose value is at least 0. *)
Fixpoint accepted (es : list SinGen.event) : nat :=
  match es with
  | [] => O
  | SinGen.Loop (Some x) :: es => (if fge x (Fin 0) then 1 else 0) + accepted es
  | _ :: es => accepted es
  end.

(** *** The specification's formulas, over exact rationals *)

Definition spec_round (x : Q) : Z :=
  if Qle_bool 0 x then Qfloor (x + (1 # 2)) else Qceiling (x - (1 # 2)).

Definition spec_clamp (x lo hi : Z) : Z := Z.max lo (Z.min hi x).



(** The angle of sample [i] of [size], [2 pi i / size], with pi to 31
    decimals. *)
Definition spec_angle (size i : Z) : Q := 2 * pi_Q * inject_Z i / inject_Z size.

(** [clamp (offsetCode + round (amplitudeCode * sine), 0, 255)], for the
    sine of the angle of the sample. *)
Definition spec_sample (offsetCode amplitudeCode : Z) (sine : Q) : Z :=
  spec_clamp (offsetCode + spec_round (inject_Z amplitudeCode * sine)) 0 255.

(** How far, relative to the angle, the argument the sketch hands to the
    sine may be from [spec_angle]: index and size are exact as [float]
    below [2^24] and the angle is then off by three roundings to
    [double]; above, the casts to [float] round too. *)
Definition angle_error (size : Z) : Q :=
  if size <? 2 ^ 24 then 1 # 2 ^ 50 else 1 # 2 ^ 22.

(** [lut] holds the samples of the specification's formula for the codes
    [offsetCode] and [amplitudeCode]: sample [i] is the formula at a sine
    [s] that is the library's sine [v] of the angle up to the rounding of
    the sketch's [float] arithmetic; the argument [a] of the library's
    sine is [spec_angle] up to [angle_error]. *)
Definition follows_formula
    (c_sin : fp -> fp) (size offsetCode amplitudeCode : Z) (lut : list Z) : Prop :=
  forall i, 0 <= i < size ->
    exists a v s : Q,
      (Qabs (a - spec_angle size i) <= angle_error size * spec_angle size i)%Q /\
      c_sin (Fin a) = Fin v /\
      (Qabs (s - v) <= 1 # 2 ^ 23)%Q /\
      SinGen.sampleAt lut i = spec_sample offsetCode amplitudeCode s.

(** The value of a finite [float]. *)
Definition float_value (x : Q) : Prop :=
  representable binary32 x /\ (Qabs x < pow2 (emax binary32))%Q.

(** The value of a finite floating-point number. *)
Definition value (a : fp) : Q :=
  match a with
  | Fin q => q
  | _ => 0
  end.


(** A generator that is playing, and the same generator after one command
    of frequency zero. *)
Definition playing : SinGen.state :=
  SinGen.set_timer (Some (SinGen.Timer true (Some (SinGen.Alarm 39 true 0))))
    (SinGen.set_updatePeriodMicros 39 (SinGen.initial 256)).

Definition stopped : SinGen.state :=
  SinGen.set_updateFrequency false
    (SinGen.dacWrite 128
       (SinGen.set_updatePeriodMicros 0
          (SinGen.timerDetachInterrupt
             (SinGen.set_targetFrequency (Fin 0) playing)))).

(** A table of four samples with the cursor at its start. *)
Definition four_samples : SinGen.state :=
  SinGen.set_sineLUT [128; 167; 128; 89] (SinGen.initial 4).

(** The [float] just below one million, [1000000 - 1/16]. *)
Definition below_million : Q := 15999999 # 16.

(** The code the loop body of [generateSineLUT] stores at index [i]. *)
Definition entry (LUT_SIZE : Z) (c_sin : fp -> fp) (offset_dac amplitude_dac i : Z) : Z :=
  match SinGen.lut_entry LUT_SIZE c_sin offset_dac amplitude_dac i with
  | Ok v => v
  | _ => 0
  end.

(** *** Notions for the further properties *)

(** The period computed from the [float] product of frequency and size:
    the last two lines of [calculateUpdatePeriod]. *)
Definition quotient_period (x : fp) : result Z :=
  period <- defined (to_uint64 (fdiv binary64 (Fin 1000000) x)) ;;
  Ok (if period >? 0 then period else 1).

(** Whenever the callback can fire, the alarm is programmed with the
    current period, which is at least one microsecond, with auto-reload
    and a count starting at 0. *)
Definition armed_ok (s : SinGen.state) : Prop :=
  SinGen.running s = true ->
  exists t,
    SinGen.timer s = Some t /\
    SinGen.alarm t = Some (SinGen.Alarm (SinGen.updatePeriodMicros s) true 0) /\
    1 <= SinGen.updatePeriodMicros s.

(** The [k] samples that follow the cursor [c], around the table. *)
Definition upcoming (LUT_SIZE : Z) (lut : list Z) (c : Z) (k : nat) : list Z :=
  map (fun j => SinGen.sampleAt lut ((c + Z.of_nat j) mod LUT_SIZE)) (seq 0 k).

(** What [k] passes of the busy loop do from index [c]. *)
Definition upcoming_actions (LUT_SIZE : Z) (lut : list Z) (c d : Z) (k : nat)
  : list BusyLoop.action :=
  flat_map
    (fun j =>
       [BusyLoop.Write (nth (Z.to_nat ((c + Z.of_nat j) mod LUT_SIZE)) lut 0 mod 256);
        BusyLoop.Delay d])
    (seq 0 k).

(** Every code of a list within [[lo, hi]]. *)
Definition within (lo hi : Z) (l : list Z) : Prop :=
  Forall (fun v => lo <= v <= hi) l.

(** The state [setup] starts from in the runs below: the table array of
    the right length, the cursor at 0, nothing written yet. *)
Definition fresh (LUT_SIZE : Z) (s : SinGen.state) : Prop :=
  SinGen.lutIndex s = 0 /\
  length (SinGen.sineLUT s) = Z.to_nat LUT_SIZE /\
  SinGen.dac s = [].

(** The state of [loop] once the waiting line has been read. *)
Definition after_input (input : option fp) (s : SinGen.state) : SinGen.state :=
  match input with
  | Some newFreq =>
      if fge newFreq (Fin 0)
      then SinGen.set_updateFrequency true (SinGen.set_targetFrequency newFreq s)
      else s
  | None => s
  end.

(** The table of four samples being played. *)
Definition four_playing : SinGen.state :=
  SinGen.set_timer (Some (SinGen.Timer true (Some (SinGen.Alarm 39 true 0))))
    four_samples.

(** The invariant behind the envelope of the output: the cursor within
    the table, and table and output within the envelope. *)
Definition enveloped (LUT_SIZE : Z) (s : SinGen.state) : Prop :=
  0 <= SinGen.lutIndex s < LUT_SIZE /\
  length (SinGen.sineLUT s) = Z.to_nat LUT_SIZE /\
  within 89 167 (SinGen.sineLUT s) /\
  within 89 167 (SinGen.dac s).

(** ** Facts about the floating-point model *)

(** *** Powers of two *)

Lemma pow2_pos (e : Z) : (0 < pow2 e)%Q.
Proof. apply Qpower_0_lt. reflexivity. Qed.

Lemma pow2_add (a b : Z) : (pow2 (a + b) == pow2 a * pow2 b)%Q.
Proof. apply Qpower_plus. discriminate. Qed.

Lemma pow2_sub (a b : Z) : (pow2 (a - b) == pow2 a / pow2 b)%Q.
Proof. apply Qpower_minus. discriminate. Qed.

Lemma pow2_le (a b : Z) : a <= b -> (pow2 a <= pow2 b)%Q.
Proof. intros H. apply Qpower_le_compat_l; [exact H | discriminate]. Qed.

Lemma pow2_lt (a b : Z) : a < b -> (pow2 a < pow2 b)%Q.
Proof. intros H. apply Qpower_lt_compat_l; [exact H | reflexivity]. Qed.

Lemma pow2_lt_inv (a b : Z) : (pow2 a < pow2 b)%Q -> a < b.
Proof. intros H. apply (Qpower_lt_compat_l_inv 2); [exact H | reflexivity]. Qed.

Lemma pow2_Z (e : Z) : 0 <= e -> (pow2 e == inject_Z (2 ^ e))%Q.
Proof. intros H. symmetry. apply (Zpower_Qpower 2 e H). Qed.

Lemma pow2_0 : (pow2 0 == 1)%Q.
Proof. reflexivity. Qed.

Lemma pow2_succ (e : Z) : (pow2 (e + 1) == 2 * pow2 e)%Q.
Proof. rewrite pow2_add. change (pow2 1) with 2%Q. ring. Qed.

(** *** Integer logarithm *)

Lemma Qdiv_le_cross (a b c d : Q) :
  (0 < b)%Q -> (0 < d)%Q -> (a * d <= c * b)%Q -> (a / b <= c / d)%Q.
Proof.
  intros Hb Hd H.
  apply Qle_shift_div_l; [exact Hd|].
  setoid_replace (a / b * d)%Q with (a * d / b)%Q by (field; lra).
  apply Qle_shift_div_r; [exact Hb | exact H].
Qed.

Lemma Qdiv_lt_cross (a b c d : Q) :
  (0 < b)%Q -> (0 < d)%Q -> (a * d < c * b)%Q -> (a / b < c / d)%Q.
Proof.
  intros Hb Hd H.
  apply Qlt_shift_div_l; [exact Hd|].
  setoid_replace (a / b * d)%Q with (a * d / b)%Q by (field; lra).
  apply Qlt_shift_div_r; [exact Hb | exact H].
Qed.

Lemma Qle_div_mult_l (a b c : Q) :
  (0 < c)%Q -> (a <= b / c)%Q -> (a * c <= b)%Q.
Proof.
  intros Hc H. apply (Qmult_le_r _ _ c Hc) in H.
  setoid_replace (b / c * c)%Q with b in H by (field; lra). exact H.
Qed.

Lemma Qlt_div_mult_l (a b c : Q) :
  (0 < c)%Q -> (a < b / c)%Q -> (a * c < b)%Q.
Proof.
  intros Hc H. apply (Qmult_lt_r _ _ c Hc) in H.
  setoid_replace (b / c * c)%Q with b in H by (field; lra). exact H.
Qed.

Lemma Qle_div_mult_r (a b c : Q) :
  (0 < c)%Q -> (b / c <= a)%Q -> (b <= a * c)%Q.
Proof.
  intros Hc H. apply (Qmult_le_r _ _ c Hc) in H.
  setoid_replace (b / c * c)%Q with b in H by (field; lra). exact H.
Qed.

Lemma Q_num_den (x : Q) : (x == inject_Z (Qnum x) / inject_Z (Zpos (Qden x)))%Q.
Proof. destruct x as [n d]. simpl. apply Qmake_Qdiv. Qed.

Lemma Qnum_pos (x : Q) : (0 < x)%Q -> 0 < Qnum x.
Proof. destruct x as [n d]. unfold Qlt. simpl. lia. Qed.

Lemma ilog2_spec (x : Q) :
  (0 < x)%Q -> (pow2 (ilog2 x) <= x)%Q /\ (x < pow2 (ilog2 x + 1))%Q.
Proof.
  intros Hx.
  pose proof (Qnum_pos x Hx) as Hn.
  set (n := Qnum x) in *. set (d := Zpos (Qden x)).
  assert (Hd : 0 < d) by (unfold d; lia).
  destruct (Z.log2_spec n Hn) as [Hn1 Hn2].
  destruct (Z.log2_spec d Hd) as [Hd1 Hd2].
  pose proof (Z.log2_nonneg n) as Hln. pose proof (Z.log2_nonneg d) as Hld.
  assert (Hxe : (x == inject_Z n / inject_Z d)%Q) by apply Q_num_den.
  assert (HdQ : (0 < inject_Z d)%Q) by (rewrite <- (Zlt_Qlt 0); exact Hd).
  assert (Hlo : (pow2 (Z.log2 n - Z.log2 d - 1) <= x)%Q).
  { replace (Z.log2 n - Z.log2 d - 1) with (Z.log2 n - Z.succ (Z.log2 d)) by lia.
    rewrite pow2_sub, Hxe, !pow2_Z by lia.
    apply Qdiv_le_cross.
    - rewrite <- (Zlt_Qlt 0). apply Z.pow_pos_nonneg; lia.
    - exact HdQ.
    - rewrite <- !inject_Z_mult, <- Zle_Qle. nia. }
  assert (Hhi : (x < pow2 (Z.log2 n - Z.log2 d + 1))%Q).
  { replace (Z.log2 n - Z.log2 d + 1) with (Z.succ (Z.log2 n) - Z.log2 d) by lia.
    rewrite pow2_sub, Hxe, !pow2_Z by lia.
    apply Qdiv_lt_cross.
    - exact HdQ.
    - rewrite <- (Zlt_Qlt 0). apply Z.pow_pos_nonneg; lia.
    - rewrite <- !inject_Z_mult, <- Zlt_Qlt.
      assert (0 < 2 ^ Z.log2 d) by (apply Z.pow_pos_nonneg; lia). nia. }
  unfold ilog2. fold n. fold d.
  destruct (Qle_bool (pow2 (Z.log2 n - Z.log2 d)) x) eqn:E.
  - apply Qle_bool_iff in E. split; assumption.
  - split; [exact Hlo|].
    replace (Z.log2 n - Z.log2 d - 1 + 1) with (Z.log2 n - Z.log2 d) by lia.
    apply Qnot_le_lt. intros H. apply Qle_bool_iff in H. congruence.
Qed.

Lemma ilog2_ge (x : Q) (k : Z) : (pow2 k <= x)%Q -> k <= ilog2 x.
Proof.
  intros H.
  assert (Hx : (0 < x)%Q) by (pose proof (pow2_pos k); lra).
  destruct (ilog2_spec x Hx) as [_ Hhi].
  assert (k < ilog2 x + 1); [|lia].
  apply pow2_lt_inv. lra.
Qed.

Lemma ilog2_lt (x : Q) (k : Z) : (0 < x)%Q -> (x < pow2 k)%Q -> ilog2 x < k.
Proof.
  intros Hx H.
  destruct (ilog2_spec x Hx) as [Hlo _].
  apply pow2_lt_inv. lra.
Qed.

Lemma ilog2_mono (x y : Q) : (0 < x)%Q -> (x <= y)%Q -> ilog2 x <= ilog2 y.
Proof.
  intros Hx H. apply ilog2_ge.
  destruct (ilog2_spec x Hx) as [Hlo _]. lra.
Qed.

Lemma ilog2_comp (x y : Q) : (0 < x)%Q -> (x == y)%Q -> ilog2 x = ilog2 y.
Proof.
  intros Hx H.
  assert (ilog2 x <= ilog2 y) by (apply ilog2_mono; lra).
  assert (ilog2 y <= ilog2 x) by (apply ilog2_mono; lra).
  lia.
Qed.


(** *** Rounding to the nearest integer *)

Lemma Qfloor_unique (x : Q) (z : Z) :
  (inject_Z z <= x)%Q -> (x < inject_Z (z + 1))%Q -> Qfloor x = z.
Proof.
  intros H1 H2.
  pose proof (Qfloor_le x) as F1. pose proof (Qlt_floor x) as F2.
  assert (z < Qfloor x + 1) by (rewrite Zlt_Qlt; lra).
  assert (Qfloor x < z + 1) by (rewrite Zlt_Qlt; lra).
  lia.
Qed.

Lemma rne_cases (x : Q) :
  (rne x = Qfloor x /\ (x - inject_Z (Qfloor x) <= 1 # 2)%Q) \/
  (rne x = Qfloor x + 1 /\ (1 # 2 <= x - inject_Z (Qfloor x))%Q).
Proof.
  unfold rne.
  destruct (Qcompare_spec (x - inject_Z (Qfloor x)) (1 # 2)) as [E | E | E].
  - destruct (Z.even (Qfloor x)); [left | right]; split; auto; lra.
  - left. split; auto. lra.
  - right. split; auto. lra.
Qed.

Lemma rne_bounds (x : Q) : Qfloor x <= rne x <= Qfloor x + 1.
Proof. destruct (rne_cases x) as [[-> _] | [-> _]]; lia. Qed.

Lemma rne_err (x : Q) :
  (inject_Z (rne x) - x <= 1 # 2)%Q /\ (x - inject_Z (rne x) <= 1 # 2)%Q.
Proof.
  pose proof (Qfloor_le x) as F1. pose proof (Qlt_floor x) as F2.
  rewrite inject_Z_plus in F2. change (inject_Z 1) with 1%Q in F2.
  destruct (rne_cases x) as [[-> H] | [-> H]];
    rewrite ?inject_Z_plus; change (inject_Z 1) with 1%Q; split; lra.
Qed.

Lemma rne_int (x : Q) (z : Z) : (x == inject_Z z)%Q -> rne x = z.
Proof.
  intros H. unfold rne.
  assert (F : Qfloor x = z) by (rewrite H; apply Qfloor_Z).
  rewrite F.
  destruct (Qcompare_spec (x - inject_Z z) (1 # 2)) as [E | E | E]; auto; lra.
Qed.

Lemma rne_comp (x y : Q) : (x == y)%Q -> rne x = rne y.
Proof.
  intros H. unfold rne.
  assert (F : Qfloor x = Qfloor y) by (rewrite H; reflexivity).
  rewrite F.
  destruct (Qcompare_spec (x - inject_Z (Qfloor y)) (1 # 2)) as [E | E | E];
    destruct (Qcompare_spec (y - inject_Z (Qfloor y)) (1 # 2)) as [E' | E' | E'];
    auto; lra.
Qed.

Lemma rne_mono (x y : Q) : (x <= y)%Q -> rne x <= rne y.
Proof.
  intros H.
  pose proof (Qfloor_resp_le x y H) as F.
  destruct (Z.eq_dec (Qfloor x) (Qfloor y)) as [E | N].
  - unfold rne. rewrite E.
    destruct (Qcompare_spec (x - inject_Z (Qfloor y)) (1 # 2)) as [A | A | A];
      destruct (Qcompare_spec (y - inject_Z (Qfloor y)) (1 # 2)) as [B | B | B];
      try destruct (Z.even (Qfloor y)); try lia; lra.
  - pose proof (rne_bounds x). pose proof (rne_bounds y). lia.
Qed.

Lemma rne_opp (x : Q) : rne (- x) = - rne x.
Proof.
  pose proof (Qfloor_le x) as F1. pose proof (Qlt_floor x) as F2.
  rewrite inject_Z_plus in F2. change (inject_Z 1) with 1%Q in F2.
  destruct (Qeq_dec x (inject_Z (Qfloor x))) as [E | N].
  - rewrite (rne_int x (Qfloor x) E).
    apply rne_int. rewrite inject_Z_opp. lra.
  - assert (F : Qfloor (- x) = - (Qfloor x + 1)).
    { apply Qfloor_unique.
      - rewrite inject_Z_opp, inject_Z_plus. change (inject_Z 1) with 1%Q. lra.
      - replace (- (Qfloor x + 1) + 1) with (- Qfloor x) by lia.
        rewrite inject_Z_opp.
        assert (inject_Z (Qfloor x) < x)%Q; [|lra].
        apply Qle_lteq in F1. destruct F1 as [F1 | F1]; [exact F1|].
        exfalso. apply N. symmetry. exact F1. }
    unfold rne. rewrite F.
    assert (Ev : Z.even (- (Qfloor x + 1)) = negb (Z.even (Qfloor x))).
    { rewrite Z.even_opp, Z.even_add. simpl.
      destruct (Z.even (Qfloor x)); reflexivity. }
    rewrite Ev, inject_Z_opp, inject_Z_plus.
    change (inject_Z 1) with 1%Q.
    destruct (Qcompare_spec (- x - - (inject_Z (Qfloor x) + 1)) (1 # 2)) as [A | A | A];
      destruct (Qcompare_spec (x - inject_Z (Qfloor x)) (1 # 2)) as [B | B | B];
      try destruct (Z.even (Qfloor x)); simpl; try lia; lra.
Qed.


(** *** Rounding into a format *)

Lemma Qabs_nonzero (x : Q) : ~ (x == 0)%Q -> (0 < Qabs x)%Q.
Proof.
  intros H. destruct (Qlt_le_dec x 0) as [N | P].
  - rewrite Qabs_neg; lra.
  - rewrite Qabs_pos; [|exact P].
    apply Qle_lteq in P. destruct P as [P | P]; [exact P|].
    exfalso. apply H. symmetry. exact P.
Qed.

Section Rounding.

Variable f : format.
Hypothesis prec_pos : 0 < prec f.

Lemma roundQ_eq (x : Q) :
  (roundQ f x == inject_Z (rne (x / pow2 (cexp f x))) * pow2 (cexp f x))%Q.
Proof. unfold roundQ. apply Qred_correct. Qed.

Lemma roundQ_0 (x : Q) : (x == 0)%Q -> roundQ f x = 0%Q.
Proof.
  intros H. unfold roundQ.
  assert (R : rne (x / pow2 (cexp f x)) = 0).
  { apply rne_int. unfold Qdiv.
    rewrite (Qmult_comp x 0%Q H _ _ (Qeq_refl _)). ring. }
  rewrite R. change 0%Q with (Qred 0). apply Qred_complete. ring.
Qed.

Lemma cexp_pos (x : Q) :
  (0 < x)%Q -> cexp f x = Z.max (ilog2 x - prec f + 1) (emin f).
Proof.
  intros H. unfold cexp.
  rewrite (ilog2_comp (Qabs x) x); [reflexivity | | apply Qabs_pos; lra].
  rewrite Qabs_pos; lra.
Qed.

Lemma cexp_opp (x : Q) : ~ (x == 0)%Q -> cexp f (- x) = cexp f x.
Proof.
  intros H. unfold cexp.
  rewrite (ilog2_comp (Qabs (- x)) (Qabs x)); [reflexivity | | apply Qabs_opp].
  rewrite Qabs_opp. apply Qabs_nonzero, H.
Qed.

Lemma roundQ_opp (x : Q) : (roundQ f (- x) == - roundQ f x)%Q.
Proof.
  destruct (Qeq_dec x 0) as [E | N].
  - rewrite (roundQ_0 x E), (roundQ_0 (- x)); [reflexivity | lra].
  - rewrite !roundQ_eq, (cexp_opp x N).
    rewrite (rne_comp (- x / pow2 (cexp f x)) (- (x / pow2 (cexp f x)))).
    + rewrite rne_opp, inject_Z_opp. ring.
    + unfold Qdiv. ring.
Qed.

Lemma roundQ_le_pow2 (x : Q) (k : Z) :
  (x <= pow2 k)%Q -> cexp f x <= k -> (roundQ f x <= pow2 k)%Q.
Proof.
  intros Hx Hk. rewrite roundQ_eq.
  set (c := cexp f x) in *.
  pose proof (pow2_pos c) as Pc.
  assert (R : rne (x / pow2 c) <= 2 ^ (k - c)).
  { rewrite <- (rne_int (inject_Z (2 ^ (k - c))) (2 ^ (k - c))) by reflexivity.
    apply rne_mono. rewrite <- pow2_Z by lia. rewrite pow2_sub.
    apply Qdiv_le_cross; auto. apply Qmult_le_r; auto. }
  rewrite Zle_Qle, <- pow2_Z, pow2_sub in R by lia.
  apply Qle_div_mult_l; auto.
Qed.

Lemma roundQ_ge_pow2 (x : Q) (k : Z) :
  (pow2 k <= x)%Q -> cexp f x <= k -> (pow2 k <= roundQ f x)%Q.
Proof.
  intros Hx Hk. rewrite roundQ_eq.
  set (c := cexp f x) in *.
  pose proof (pow2_pos c) as Pc.
  assert (R : 2 ^ (k - c) <= rne (x / pow2 c)).
  { rewrite <- (rne_int (inject_Z (2 ^ (k - c))) (2 ^ (k - c))) at 1 by reflexivity.
    apply rne_mono. rewrite <- pow2_Z by lia. rewrite pow2_sub.
    apply Qdiv_le_cross; auto. apply Qmult_le_r; auto. }
  rewrite Zle_Qle, <- pow2_Z, pow2_sub in R by lia.
  apply Qle_div_mult_r; auto.
Qed.

Lemma roundQ_nonneg (x : Q) : (0 <= x)%Q -> (0 <= roundQ f x)%Q.
Proof.
  intros H. rewrite roundQ_eq.
  pose proof (pow2_pos (cexp f x)) as Pc.
  apply Qmult_le_0_compat; [|lra].
  rewrite <- (Zle_Qle 0).
  rewrite <- (rne_int 0%Q 0) by reflexivity.
  apply rne_mono. apply Qle_shift_div_l; auto. lra.
Qed.

Lemma roundQ_mono_pos (x y : Q) :
  (0 < x)%Q -> (x <= y)%Q -> (roundQ f x <= roundQ f y)%Q.
Proof.
  intros Hx Hxy.
  assert (Hy : (0 < y)%Q) by lra.
  pose proof (ilog2_mono x y Hx Hxy) as L.
  pose proof (cexp_pos x Hx) as Cx. pose proof (cexp_pos y Hy) as Cy.
  destruct (ilog2_spec x Hx) as [_ Xhi]. destruct (ilog2_spec y Hy) as [Ylo _].
  destruct (Z.eq_dec (cexp f x) (cexp f y)) as [E | N].
  - rewrite !roundQ_eq, E.
    pose proof (pow2_pos (cexp f y)) as Pc.
    apply Qmult_le_r; auto. rewrite <- Zle_Qle. apply rne_mono.
    apply Qdiv_le_cross; auto. apply Qmult_le_r; auto.
  - apply Qle_trans with (pow2 (Z.max (ilog2 x + 1) (cexp f x))).
    + apply roundQ_le_pow2; [|lia].
      apply Qle_trans with (pow2 (ilog2 x + 1)); [lra | apply pow2_le; lia].
    + apply Qle_trans with (pow2 (ilog2 y)).
      * apply pow2_le. lia.
      * apply roundQ_ge_pow2; [exact Ylo | lia].
Qed.

Lemma roundQ_mono (x y : Q) : (x <= y)%Q -> (roundQ f x <= roundQ f y)%Q.
Proof.
  intros H.
  destruct (Qlt_le_dec 0 x) as [Px | Nx].
  - apply roundQ_mono_pos; assumption.
  - destruct (Qlt_le_dec y 0) as [Ny | Py].
    + assert (A : (roundQ f (- y) <= roundQ f (- x))%Q)
        by (apply roundQ_mono_pos; lra).
      rewrite !roundQ_opp in A. lra.
    + pose proof (roundQ_nonneg y Py) as B.
      assert (A : (0 <= roundQ f (- x))%Q) by (apply roundQ_nonneg; lra).
      rewrite roundQ_opp in A. lra.
Qed.

Lemma roundQ_fix_pos (m e : Z) :
  emin f <= e -> 0 < m < 2 ^ prec f ->
  (roundQ f (inject_Z m * pow2 e) == inject_Z m * pow2 e)%Q.
Proof.
  intros He Hm.
  set (x := (inject_Z m * pow2 e)%Q).
  pose proof (pow2_pos e) as Pe.
  assert (Hx : (0 < x)%Q).
  { unfold x. apply Qmult_lt_0_compat; auto. rewrite <- (Zlt_Qlt 0). lia. }
  assert (Hl : ilog2 x < prec f + e).
  { apply ilog2_lt; auto. unfold x. rewrite pow2_add, (pow2_Z (prec f)) by lia.
    apply Qmult_lt_r; auto. rewrite <- Zlt_Qlt. lia. }
  rewrite roundQ_eq. rewrite (cexp_pos x Hx).
  set (c := Z.max (ilog2 x - prec f + 1) (emin f)).
  assert (Hc : c <= e) by (unfold c; lia).
  pose proof (pow2_pos c) as Pc.
  rewrite (rne_int (x / pow2 c) (m * 2 ^ (e - c))).
  - rewrite inject_Z_mult, <- (pow2_Z (e - c)), pow2_sub by lia.
    unfold x. field. lra.
  - rewrite inject_Z_mult, <- (pow2_Z (e - c)), pow2_sub by lia.
    unfold x. field. lra.
Qed.

Lemma roundQ_comp (x y : Q) : (x == y)%Q -> roundQ f x = roundQ f y.
Proof.
  intros H. destruct (Qeq_dec x 0) as [Z0 | NZ].
  - rewrite (roundQ_0 x Z0), roundQ_0; [reflexivity | lra].
  - assert (Ce : cexp f x = cexp f y).
    { unfold cexp. rewrite (ilog2_comp (Qabs x) (Qabs y)).
      - reflexivity.
      - apply Qabs_nonzero, NZ.
      - rewrite H. reflexivity. }
    unfold roundQ. rewrite Ce. apply Qred_complete.
    rewrite (rne_comp (x / pow2 (cexp f y)) (y / pow2 (cexp f y))).
    + reflexivity.
    + rewrite H. reflexivity.
Qed.

Lemma roundQ_fix (x : Q) : representable f x -> (roundQ f x == x)%Q.
Proof.
  intros (m & e & He & Hm & Hx).
  rewrite (roundQ_comp x _ Hx), Hx.
  destruct (Z.lt_trichotomy m 0) as [N | [Z0 | P]].
  - rewrite (roundQ_comp _ (- (inject_Z (- m) * pow2 e))%Q)
      by (rewrite inject_Z_opp; ring).
    rewrite roundQ_opp, roundQ_fix_pos; [|exact He | lia].
    rewrite inject_Z_opp. ring.
  - subst m. rewrite roundQ_0; ring.
  - apply roundQ_fix_pos; [exact He | lia].
Qed.

Lemma roundQ_le (x b : Q) : representable f b -> (x <= b)%Q -> (roundQ f x <= b)%Q.
Proof.
  intros Rb H. rewrite <- (roundQ_fix b Rb). apply roundQ_mono, H.
Qed.

Lemma roundQ_ge (x b : Q) : representable f b -> (b <= x)%Q -> (b <= roundQ f x)%Q.
Proof.
  intros Rb H. rewrite <- (roundQ_fix b Rb). apply roundQ_mono, H.
Qed.

Lemma representable_opp (x : Q) : representable f x -> representable f (- x).
Proof.
  intros (m & e & He & Hm & Hx). exists (- m), e.
  repeat split; [exact He | lia |]. rewrite Hx, inject_Z_opp. ring.
Qed.

Lemma representable_Z (z : Z) :
  emin f <= 0 -> Z.abs z < 2 ^ prec f -> representable f (inject_Z z).
Proof.
  intros He Hz. exists z, 0. repeat split; auto.
  rewrite pow2_0. ring.
Qed.

Lemma roundQ_err (x : Q) :
  (roundQ f x - x <= (1 # 2) * pow2 (cexp f x))%Q /\
  (x - roundQ f x <= (1 # 2) * pow2 (cexp f x))%Q.
Proof.
  rewrite roundQ_eq. set (c := cexp f x).
  pose proof (pow2_pos c) as Pc.
  destruct (rne_err (x / pow2 c)) as [A B].
  apply (Qmult_le_r _ _ (pow2 c) Pc) in A.
  apply (Qmult_le_r _ _ (pow2 c) Pc) in B.
  setoid_replace ((inject_Z (rne (x / pow2 c)) - x / pow2 c) * pow2 c)%Q
    with (inject_Z (rne (x / pow2 c)) * pow2 c - x)%Q in A by (field; lra).
  setoid_replace ((x / pow2 c - inject_Z (rne (x / pow2 c))) * pow2 c)%Q
    with (x - inject_Z (rne (x / pow2 c)) * pow2 c)%Q in B by (field; lra).
  split; lra.
Qed.

(** In the normal range rounding loses at most the relative [2^-prec]. *)
Lemma roundQ_rel_lower (x : Q) :
  (pow2 (emin f + prec f - 1) <= x)%Q ->
  (x * (1 - pow2 (- prec f)) <= roundQ f x)%Q.
Proof.
  intros Hn.
  assert (Hx : (0 < x)%Q) by (pose proof (pow2_pos (emin f + prec f - 1)); lra).
  pose proof (ilog2_ge x _ Hn) as L.
  destruct (ilog2_spec x Hx) as [Lo _].
  destruct (roundQ_err x) as [_ E].
  rewrite (cexp_pos x Hx) in E.
  replace (Z.max (ilog2 x - prec f + 1) (emin f)) with (ilog2 x + (1 - prec f)) in E by lia.
  rewrite pow2_add in E.
  assert (P : (pow2 (1 - prec f) == 2 * pow2 (- prec f))%Q).
  { replace (1 - prec f) with (- prec f + 1) by lia. apply pow2_succ. }
  rewrite P in E.
  pose proof (pow2_pos (- prec f)) as Pp.
  assert (M : (pow2 (ilog2 x) * pow2 (- prec f) <= x * pow2 (- prec f))%Q)
    by (apply Qmult_le_r; auto).
  setoid_replace ((1 # 2) * (pow2 (ilog2 x) * (2 * pow2 (- prec f))))%Q
    with (pow2 (ilog2 x) * pow2 (- prec f))%Q in E by field.
  lra.
Qed.

(** *** Results that stay finite *)

Lemma round_fin (x : Q) :
  (Qabs (roundQ f x) < pow2 (emax f))%Q -> round f x = Fin (roundQ f x).
Proof.
  intros H. unfold round.
  destruct (Qle_bool (pow2 (emax f)) (Qabs (roundQ f x))) eqn:E; [|reflexivity].
  apply Qle_bool_iff in E. lra.
Qed.

Lemma round_nonneg_cases (x : Q) :
  (0 <= x)%Q -> round f x = Inf false \/ round f x = Fin (roundQ f x).
Proof.
  intros H. unfold round.
  destruct (Qle_bool (pow2 (emax f)) (Qabs (roundQ f x))); [left | right; reflexivity].
  unfold Qneg.
  pose proof (roundQ_nonneg x H) as R. apply Qle_bool_iff in R.
  rewrite R. reflexivity.
Qed.

Lemma round_bounded (x b : Q) :
  representable f b -> (b < pow2 (emax f))%Q -> (- b <= x <= b)%Q ->
  round f x = Fin (roundQ f x) /\ (- b <= roundQ f x <= b)%Q.
Proof.
  intros Rb Hb [Lo Hi].
  pose proof (roundQ_le x b Rb Hi) as A.
  pose proof (roundQ_ge x (- b) (representable_opp b Rb) Lo) as B.
  split; [|split; assumption].
  apply round_fin. apply Qabs_Qlt_condition. split; lra.
Qed.

Lemma round_exact (x : Q) :
  representable f x -> (Qabs x < pow2 (emax f))%Q ->
  exists r, round f x = Fin r /\ (r == x)%Q.
Proof.
  intros Rx Hx. exists (roundQ f x).
  pose proof (roundQ_fix x Rx) as E.
  split; [|exact E]. apply round_fin. rewrite E. exact Hx.
Qed.

Lemma roundQ_comp_round (x y : Q) : (x == y)%Q -> round f x = round f y.
Proof. intros H. unfold round. rewrite (roundQ_comp x y H). reflexivity. Qed.

End Rounding.


(** *** Agreement with the standard library's specification *)

Example model_agrees_with_SpecFloat : forallb agree operands = true.
Proof. vm_compute. reflexivity. Qed.

(** *** The two formats of the sketches *)

Lemma prec32_pos : 0 < prec binary32.
Proof. reflexivity. Qed.

Lemma prec64_pos : 0 < prec binary64.
Proof. reflexivity. Qed.

Lemma pow2_m24 : (pow2 (-24) == 1 # 16777216)%Q.
Proof. reflexivity. Qed.

Lemma to_uint64_nonneg (q : Q) :
  (0 <= q)%Q -> Qfloor q < 2 ^ 64 -> to_uint64 (Fin q) = Some (Qfloor q).
Proof.
  intros H0 Hb. unfold to_uint64, Qtrunc.
  apply Qle_bool_iff in H0. rewrite H0.
  apply Qle_bool_iff in H0.
  assert (0 <= Qfloor q) by (rewrite <- (Qfloor_Z 0); apply Qfloor_resp_le, H0).
  assert (A : (0 <=? Qfloor q) = true) by (apply Z.leb_le; assumption).
  assert (B : (Qfloor q <? 2 ^ 64) = true) by (apply Z.ltb_lt; assumption).
  rewrite A, B. reflexivity.
Qed.

Lemma fmul_pos_inf (f : format) (x : Q) :
  (0 < x)%Q -> fmul f (Fin x) (Inf false) = Inf false.
Proof.
  intros H. unfold fmul.
  destruct (Qeq_bool x 0) eqn:E.
  - apply Qeq_bool_iff in E. lra.
  - unfold Qneg. assert (L : Qle_bool 0 x = true) by (apply Qle_bool_iff; lra).
    rewrite L. reflexivity.
Qed.

(** ** The timer period *)

Section Period.

Variable LUT_SIZE : Z.
Hypothesis LUT_SIZE_pos : 0 < LUT_SIZE.

Lemma calculateUpdatePeriod_pos (freq : Q) :
  (0 < freq)%Q ->
  SinGen.calculateUpdatePeriod LUT_SIZE (Fin freq) =
  (period <- defined (to_uint64
     (fdiv binary64 (Fin 1000000) (fmul binary32 (Fin freq) (of_Z binary32 LUT_SIZE)))) ;;
   Ok (if period >? 0 then period else 1)).
Proof.
  intros H. unfold SinGen.calculateUpdatePeriod. simpl fle.
  destruct (Qle_bool freq 0) eqn:E.
  - apply Qle_bool_iff in E. lra.
  - destruct (LUT_SIZE <=? 0) eqn:L; [apply Z.leb_le in L; lia | reflexivity].
Qed.

(** A product that overflows [float] gives the quotient zero, which the
    floor turns into one microsecond. *)
Lemma period_of_overflow :
  (period <- defined (to_uint64 (fdiv binary64 (Fin 1000000) (Inf false))) ;;
   Ok (if period >? 0 then period else 1)) = Ok 1.
Proof. reflexivity. Qed.

Lemma size_as_float :
  of_Z binary32 LUT_SIZE = Inf false \/
  exists s, of_Z binary32 LUT_SIZE = Fin s /\
            (inject_Z LUT_SIZE * (1 - pow2 (-24)) <= s)%Q.
Proof.
  assert (H1 : (1 <= inject_Z LUT_SIZE)%Q) by (rewrite <- (Zle_Qle 1); lia).
  destruct (round_nonneg_cases binary32 (inject_Z LUT_SIZE)) as [I | F];
    [lra | left; exact I | right].
  exists (roundQ binary32 (inject_Z LUT_SIZE)). split; [exact F|].
  apply (roundQ_rel_lower binary32).
  apply Qle_trans with 1%Q; [|exact H1].
  change 1%Q with (pow2 0). apply pow2_le. vm_compute. discriminate.
Qed.

Lemma below_million_float : representable binary32 below_million.
Proof.
  exists 15999999, (-4). repeat split; try reflexivity. vm_compute. discriminate.
Qed.

Lemma three_halves_double : representable binary64 (3 # 2).
Proof.
  exists 3, (-1). repeat split; try reflexivity. vm_compute. discriminate.
Qed.

(** A quotient by a divisor of at least [below_million] truncates to 0 or 1. *)
Lemma period_of_large_product (x : Q) :
  (below_million <= x)%Q ->
  (period <- defined (to_uint64 (fdiv binary64 (Fin 1000000) (Fin x))) ;;
   Ok (if period >? 0 then period else 1)) = Ok 1.
Proof.
  intros Hx. unfold below_million in Hx.
  assert (Px : (0 < x)%Q) by lra.
  unfold fdiv.
  destruct (Qeq_bool x 0) eqn:E; [apply Qeq_bool_iff in E; lra|].
  assert (Q0 : (0 <= 1000000 / x)%Q) by (apply Qle_shift_div_l; lra).
  assert (Q1 : (1000000 / x <= 3 # 2)%Q) by (apply Qle_shift_div_r; lra).
  destruct (round_bounded binary64 prec64_pos (1000000 / x) (3 # 2)) as [R [_ B]].
  - exact three_halves_double.
  - unfold Qlt. vm_compute. reflexivity.
  - split; lra.
  - rewrite R.
    pose proof (roundQ_nonneg binary64 _ Q0) as N.
    set (q := roundQ binary64 (1000000 / x)) in *.
    assert (F0 : 0 <= Qfloor q) by (rewrite <- (Qfloor_Z 0); apply Qfloor_resp_le, N).
    assert (F1 : Qfloor q <= 1).
    { pose proof (Qfloor_le q) as Fq.
      assert (Qfloor q < 2) by (rewrite Zlt_Qlt; change (inject_Z 2) with 2%Q; lra).
      lia. }
    rewrite to_uint64_nonneg; [|exact N | lia].
    simpl. destruct (Z.eq_dec (Qfloor q) 0) as [-> | NZ]; [reflexivity|].
    assert (E1 : Qfloor q = 1) by lia. rewrite E1. reflexivity.
Qed.

Lemma calculateUpdatePeriod_large (freq : Q) :
  (0 < freq)%Q -> (1000000 < freq * inject_Z LUT_SIZE)%Q ->
  SinGen.calculateUpdatePeriod LUT_SIZE (Fin freq) = Ok 1.
Proof.
  intros Hf Hp. rewrite (calculateUpdatePeriod_pos freq Hf).
  destruct size_as_float as [I | (s & Es & Hs)]; rewrite ?I, ?Es.
  - rewrite (fmul_pos_inf binary32 freq Hf). apply period_of_overflow.
  - rewrite pow2_m24 in Hs.
    assert (S1 : (1 <= inject_Z LUT_SIZE)%Q) by (rewrite <- (Zle_Qle 1); lia).
    assert (P : (below_million <= freq * s)%Q).
    { unfold below_million.
      apply Qle_trans with (freq * (inject_Z LUT_SIZE * (1 - (1 # 16777216))))%Q.
      - setoid_replace (freq * (inject_Z LUT_SIZE * (1 - (1 # 16777216))))%Q
          with (freq * inject_Z LUT_SIZE * (16777215 # 16777216))%Q by ring.
        lra.
      - apply Qmult_le_l; assumption. }
    unfold fmul.
    destruct (round_nonneg_cases binary32 (freq * s)) as [I | F]; rewrite ?I, ?F.
    + unfold below_million in P. lra.
    + apply period_of_overflow.
    + apply period_of_large_product.
      apply (roundQ_ge binary32 prec32_pos); [exact below_million_float | exact P].
Qed.

Lemma calculateUpdatePeriod_nonpos (freq : fp) :
  fle freq (Fin 0) = true -> SinGen.calculateUpdatePeriod LUT_SIZE freq = Ok 0.
Proof. intros H. unfold SinGen.calculateUpdatePeriod. rewrite H. reflexivity. Qed.

(** An infinite frequency is positive, and its period is the floor as well. *)
Lemma calculateUpdatePeriod_infinite :
  SinGen.calculateUpdatePeriod LUT_SIZE (Inf false) = Ok 1.
Proof.
  unfold SinGen.calculateUpdatePeriod. simpl fle.
  destruct (LUT_SIZE <=? 0) eqn:L; [apply Z.leb_le in L; lia|]. simpl orb.
  assert (M : fmul binary32 (Inf false) (of_Z binary32 LUT_SIZE) = Inf false).
  { destruct size_as_float as [I | (s & Es & Hs)]; rewrite ?I, ?Es; [reflexivity|].
    rewrite pow2_m24 in Hs.
    assert (S1 : (1 <= inject_Z LUT_SIZE)%Q) by (rewrite <- (Zle_Qle 1); lia).
    assert (Sp : (0 < s)%Q).
    { apply Qlt_le_trans with (inject_Z LUT_SIZE * (1 - (1 # 16777216)))%Q; [|exact Hs].
      setoid_replace (inject_Z LUT_SIZE * (1 - (1 # 16777216)))%Q
        with (inject_Z LUT_SIZE * (16777215 # 16777216))%Q by ring.
      lra. }
    unfold fmul.
    destruct (Qeq_bool s 0) eqn:E; [apply Qeq_bool_iff in E; lra|].
    unfold Qneg. assert (Q0 : Qle_bool 0 s = true) by (apply Qle_bool_iff; lra).
    rewrite Q0. reflexivity. }
  rewrite M. apply period_of_overflow.
Qed.

End Period.

(** *** When the period is the floor of the exact quotient *)

Lemma pow2_opp (k : Z) : (pow2 (- k) == 1 / pow2 k)%Q.
Proof.
  unfold pow2. rewrite Qpower_opp. unfold Qdiv. ring.
Qed.

(** A [float] divisor [P = m * 2^e] keeps the quotient [1000000 / P] away
    from the next integer by at least [2^-24]. *)
Lemma quotient_gap (m e N : Z) (P : Q) :
  0 < m < 2 ^ 24 -> (P == inject_Z m * pow2 e)%Q -> (P <= 1000000)%Q ->
  (1000000 < inject_Z N * P)%Q ->
  (1000000 <= (inject_Z N - pow2 (-24)) * P)%Q.
Proof.
  intros Hm HP Hle Hlt. rewrite pow2_m24.
  assert (Mq : (inject_Z m <= 16777216)%Q)
    by (change 16777216%Q with (inject_Z 16777216); rewrite <- Zle_Qle; lia).
  destruct (Z_le_gt_dec 0 e) as [Ep | En].
  - assert (PX : (P == inject_Z (m * 2 ^ e))%Q)
      by (rewrite HP, inject_Z_mult, (pow2_Z e Ep); reflexivity).
    assert (Z1 : 1000000 < N * (m * 2 ^ e)).
    { rewrite Zlt_Qlt, inject_Z_mult, <- PX. exact Hlt. }
    assert (Z2 : (1000001 <= inject_Z N * P)%Q).
    { rewrite PX, <- inject_Z_mult.
      change 1000001%Q with (inject_Z 1000001). rewrite <- Zle_Qle. lia. }
    setoid_replace ((inject_Z N - (1 # 16777216)) * P)%Q
      with (inject_Z N * P - (1 # 16777216) * P)%Q by ring.
    lra.
  - set (k := - e). assert (Kp : 0 < k) by (unfold k; lia).
    assert (K0 : (0 < inject_Z (2 ^ k))%Q).
    { rewrite <- (Zlt_Qlt 0). apply Z.pow_pos_nonneg; lia. }
    assert (PK : (P == inject_Z m / inject_Z (2 ^ k))%Q).
    { rewrite HP. replace e with (- k) by (unfold k; lia).
      rewrite pow2_opp, (pow2_Z k) by lia. field. lra. }
    assert (Z1 : 1000000 * 2 ^ k < N * m).
    { rewrite Zlt_Qlt, !inject_Z_mult.
      rewrite PK in Hlt.
      setoid_replace (inject_Z N * (inject_Z m / inject_Z (2 ^ k)))%Q
        with (inject_Z N * inject_Z m / inject_Z (2 ^ k))%Q in Hlt by (field; lra).
      apply Qlt_div_mult_l in Hlt; [|exact K0].
      exact Hlt. }
    assert (Z2 : (1000000 * inject_Z (2 ^ k) + 1 <= inject_Z N * inject_Z m)%Q).
    { change 1000000%Q with (inject_Z 1000000). change 1%Q with (inject_Z 1).
      rewrite <- !inject_Z_mult, <- inject_Z_plus, <- Zle_Qle. lia. }
    rewrite PK.
    setoid_replace ((inject_Z N - (1 # 16777216)) * (inject_Z m / inject_Z (2 ^ k)))%Q
      with ((inject_Z N * inject_Z m - (1 # 16777216) * inject_Z m) / inject_Z (2 ^ k))%Q
      by (field; lra).
    apply Qle_shift_div_l; [exact K0|]. lra.
Qed.

Lemma representable_comp (f : format) (x y : Q) :
  (x == y)%Q -> representable f x -> representable f y.
Proof.
  intros E (m & e & He & Hm & Hx). exists m, e. repeat split; auto.
  rewrite <- E. exact Hx.
Qed.

Lemma pow2_128_large (x : Q) : (x <= 16777216)%Q -> (x < pow2 (emax binary32))%Q.
Proof.
  intros H. apply Qle_lt_trans with 16777216%Q; [exact H|].
  unfold Qlt. vm_compute. reflexivity.
Qed.

Lemma pow2_1024_large (x : Q) : (x <= 536870912)%Q -> (x < pow2 (emax binary64))%Q.
Proof.
  intros H. apply Qle_lt_trans with 536870912%Q; [exact H|].
  unfold Qlt. vm_compute. reflexivity.
Qed.

Lemma Qabs_of_nonneg_lt (x b : Q) : (0 <= x)%Q -> (x < b)%Q -> (Qabs x < b)%Q.
Proof. intros H0 H. rewrite Qabs_pos; assumption. Qed.

Section Floor.

Variable size : Z.
Variable freqHz : Q.
Hypothesis size_range : 0 < size < 2 ^ 24.
Hypothesis freq_pos : (0 < freqHz)%Q.
Hypothesis product_float : representable binary32 (freqHz * inject_Z size).
Hypothesis quotient_range :
  (1 <= 1000000 / (freqHz * inject_Z size))%Q /\
  (1000000 / (freqHz * inject_Z size) < 536870912)%Q.

Let P : Q := (freqHz * inject_Z size)%Q.
Let n : Z := Qfloor (1000000 / P).

Lemma product_pos : (0 < P)%Q.
Proof.
  unfold P. apply Qmult_lt_0_compat; [exact freq_pos|].
  rewrite <- (Zlt_Qlt 0). lia.
Qed.

Lemma product_le : (P <= 1000000)%Q.
Proof.
  destruct quotient_range as [Q1 _]. fold P in Q1.
  pose proof product_pos as Pp.
  apply (Qmult_le_r _ _ P Pp) in Q1.
  setoid_replace (1000000 / P * P)%Q with 1000000%Q in Q1 by (field; lra).
  lra.
Qed.

Lemma floor_range : 1 <= n < 536870912.
Proof.
  destruct quotient_range as [Q1 Q2]. fold P in Q1, Q2.
  pose proof (Qfloor_le (1000000 / P)) as F1.
  pose proof (Qfloor_resp_le _ _ Q1) as F2.
  change 1%Q with (inject_Z 1) in F2. rewrite Qfloor_Z in F2.
  fold n in F1, F2. split; [exact F2|].
  rewrite Zlt_Qlt. change (inject_Z 536870912) with 536870912%Q. lra.
Qed.

(** The largest [double] below [n + 1] that the quotient cannot exceed. *)
Let d : Q := (inject_Z (n + 1) - pow2 (-24))%Q.

Lemma quotient_le_d : (1000000 / P <= d)%Q.
Proof.
  pose proof product_pos as Pp. pose proof product_le as Ple.
  destruct product_float as (m & e & He & Hm & HP). fold P in HP.
  pose proof (pow2_pos e) as Pe.
  assert (Mp : 0 < m).
  { destruct (Z_lt_le_dec 0 m) as [G | L]; [exact G | exfalso].
    assert ((inject_Z m <= 0)%Q)
      by (change 0%Q with (inject_Z 0); rewrite <- Zle_Qle; exact L).
    assert ((inject_Z m * pow2 e <= 0 * pow2 e)%Q) by (apply Qmult_le_r; assumption).
    lra. }
  assert (Hm' : 0 < m < 2 ^ 24) by (simpl in Hm; lia).
  assert (L : (1000000 < inject_Z (n + 1) * P)%Q).
  { pose proof (Qlt_floor (1000000 / P)) as F. fold n in F.
    apply (Qmult_lt_r _ _ P Pp) in F.
    setoid_replace (1000000 / P * P)%Q with 1000000%Q in F by (field; lra).
    exact F. }
  pose proof (quotient_gap m e (n + 1) P Hm' HP Ple L) as G.
  unfold d. apply Qle_shift_div_r; [exact Pp | exact G].
Qed.

Lemma d_double : representable binary64 d.
Proof.
  pose proof floor_range as R.
  exists ((n + 1) * 16777216 - 1), (-24). repeat split.
  - vm_compute. discriminate.
  - simpl. lia.
  - unfold d. rewrite pow2_m24.
    unfold Z.sub. rewrite !inject_Z_plus, inject_Z_mult, inject_Z_plus.
    change (inject_Z 16777216) with 16777216%Q.
    change (inject_Z (- (1))) with (- (1))%Q.
    change (inject_Z 1) with 1%Q. field.
Qed.

Lemma calculateUpdatePeriod_floor :
  SinGen.calculateUpdatePeriod size (Fin freqHz) = Ok n.
Proof.
  pose proof product_pos as Pp. pose proof product_le as Ple.
  pose proof floor_range as R.
  rewrite (calculateUpdatePeriod_pos size (proj1 size_range) freqHz freq_pos).
  (* (float)LUT_SIZE is exact *)
  assert (Sq : (inject_Z size <= 16777216)%Q)
    by (change 16777216%Q with (inject_Z 16777216); rewrite <- Zle_Qle; lia).
  assert (S0 : (0 <= inject_Z size)%Q) by (rewrite <- (Zle_Qle 0); lia).
  destruct (round_exact binary32 prec32_pos (inject_Z size)) as (s & Es & Hs).
  { apply representable_Z; [vm_compute; discriminate | simpl; lia]. }
  { apply Qabs_of_nonneg_lt; [exact S0|]. apply pow2_128_large. lra. }
  unfold of_Z. rewrite Es. unfold fmul.
  (* the product is exact *)
  assert (EP : (freqHz * s == P)%Q) by (unfold P; rewrite Hs; reflexivity).
  destruct (round_exact binary32 prec32_pos (freqHz * s)) as (x & Ex & Hx).
  { apply (representable_comp binary32 P); [symmetry; exact EP | exact product_float]. }
  { rewrite EP. apply Qabs_of_nonneg_lt; [lra | apply pow2_128_large; lra]. }
  rewrite Ex. rewrite EP in Hx.
  unfold fdiv.
  destruct (Qeq_bool x 0) eqn:E0; [apply Qeq_bool_iff in E0; lra|].
  assert (EQ : (1000000 / x == 1000000 / P)%Q) by (rewrite Hx; reflexivity).
  rewrite (roundQ_comp_round binary64 _ _ EQ).
  (* the rounded quotient stays between n and d *)
  pose proof (Qfloor_le (1000000 / P)) as Fl. fold n in Fl.
  assert (Lo : (inject_Z n <= roundQ binary64 (1000000 / P))%Q).
  { apply (roundQ_ge binary64 prec64_pos); [|exact Fl].
    apply representable_Z; [vm_compute; discriminate | simpl; lia]. }
  assert (Hi : (roundQ binary64 (1000000 / P) <= d)%Q)
    by (apply (roundQ_le binary64 prec64_pos); [exact d_double | exact quotient_le_d]).
  assert (N1 : (1 <= inject_Z n)%Q) by (rewrite <- (Zle_Qle 1); lia).
  assert (N2 : (inject_Z (n + 1) <= 536870912)%Q)
    by (change 536870912%Q with (inject_Z 536870912); rewrite <- Zle_Qle; lia).
  assert (Dlt : (d < inject_Z (n + 1))%Q).
  { unfold d. rewrite pow2_m24. lra. }
  set (r := roundQ binary64 (1000000 / P)) in *.
  rewrite (round_fin binary64 (1000000 / P)).
  2:{ fold r. apply Qabs_of_nonneg_lt; [lra | apply pow2_1024_large; lra]. }
  fold r.
  assert (Fr : Qfloor r = n) by (apply Qfloor_unique; lra).
  rewrite to_uint64_nonneg; [|lra | rewrite Fr; lia].
  rewrite Fr. simpl.
  destruct (n >? 0) eqn:G; [reflexivity|].
  exfalso. rewrite Z.gtb_ltb in G. apply Z.ltb_ge in G. lia.
Qed.

End Floor.

(** With a power of two for the size, as in both sketches, the product of
    the size and a [float] frequency is a [float]. *)
Lemma float_times_pow2 (x : Q) (k : Z) :
  0 <= k -> representable binary32 x -> representable binary32 (x * inject_Z (2 ^ k)).
Proof.
  intros Hk (m & e & He & Hm & Hx). exists m, (e + k).
  repeat split; [lia | exact Hm |].
  rewrite Hx, pow2_add, (pow2_Z k Hk). ring.
Qed.

Lemma calculateUpdatePeriod_floor_256 (freqHz : Q) :
  representable binary32 freqHz -> (0 < freqHz)%Q ->
  (1 <= 1000000 / (freqHz * inject_Z 256) < 536870912)%Q ->
  SinGen.calculateUpdatePeriod 256 (Fin freqHz) =
    Ok (Qfloor (1000000 / (freqHz * inject_Z 256))).
Proof.
  intros Hr Hf Hq. apply calculateUpdatePeriod_floor; auto.
  - split; reflexivity.
  - apply (float_times_pow2 freqHz 8); [discriminate | exact Hr].
Qed.

(** C1. Whenever [freqHz > 0], [size > 0] and [freqHz * size > 1_000_000],
    so that the quotient truncates to zero, the period is exactly one
    microsecond and never zero; the frequency 20000 Hz with 256 samples is
    such a case. *)
Theorem period_floor_clamp (size : Z) (freqHz : Q) :
  (0 < freqHz)%Q -> 0 < size -> (1000000 < freqHz * inject_Z size)%Q ->
  SinGen.calculateUpdatePeriod size (Fin freqHz) = Ok 1.
Proof.
  intros Hf Hs Hp. apply calculateUpdatePeriod_large; assumption.
Qed.

Lemma period_floor_clamp_witness :
  SinGen.calculateUpdatePeriod 256 (Fin 20000) = Ok 1.
Proof.
  apply (period_floor_clamp 256 20000).
  - reflexivity.
  - reflexivity.
  - reflexivity.
Defined.

(** C7. For every table size the period of frequency 0 and of every
    negative frequency is 0: a frequency that is not positive stops the
    output. *)
Theorem period_stop (size : Z) (freqHz : Q) :
  (freqHz <= 0)%Q -> SinGen.calculateUpdatePeriod size (Fin freqHz) = Ok 0.
Proof.
  intros H. unfold SinGen.calculateUpdatePeriod. simpl fle.
  apply Qle_bool_iff in H. rewrite H. reflexivity.
Qed.

Lemma period_stop_witness :
  SinGen.calculateUpdatePeriod 256 (Fin 0) = Ok 0 /\
  SinGen.calculateUpdatePeriod 256 (Fin (- (5 # 2))) = Ok 0.
Proof.
  split.
  - apply (period_stop 256 0). discriminate.
  - apply (period_stop 256 (- (5 # 2))). discriminate.
Defined.

(** The busy loop computes the same quotient on [int]. *)
Lemma sample_delay_floor (size f : Z) :
  0 < size -> 0 < f -> f * size <= 1000000 ->
  BusyLoop.sample_delay size f =
  Ok (Qfloor (1000000 / (inject_Z f * inject_Z size))).
Proof.
  intros Hs Hf Hp. unfold BusyLoop.sample_delay, BusyLoop.int_range.
  assert (0 < f * size) by nia.
  assert (A : (- 2 ^ 31 <=? f * size) = true) by (apply Z.leb_le; lia).
  assert (B : (f * size <? 2 ^ 31) = true) by (apply Z.ltb_lt; lia).
  assert (C : (f * size =? 0) = false) by (apply Z.eqb_neq; lia).
  rewrite A, B, C. simpl. f_equal.
  rewrite Z.quot_div_nonneg by lia.
  rewrite Zdiv_Qdiv, inject_Z_mult. reflexivity.
Qed.

(** C2, as the sketches have it.  For a table of fewer than [2^24] samples
    and a frequency [freqHz > 0] whose product with the size is a [float]
    (as it is for the sizes 64 and 256 of the sketches), the period is
    [floor (1_000_000 / (freqHz * size))] as long as this quotient is at
    least 1 and below [2^29]; the busy loop's integer quotient is the same
    number when the frequency is whole.  In particular the period of 100 Hz
    is 156 with 64 samples and 39 with 256. *)
Theorem period_is_floor (size : Z) (freqHz : Q) :
  0 < size < 2 ^ 24 ->
  (0 < freqHz)%Q ->
  representable binary32 (freqHz * inject_Z size) ->
  (1 <= 1000000 / (freqHz * inject_Z size) < 536870912)%Q ->
  SinGen.calculateUpdatePeriod size (Fin freqHz) =
    Ok (Qfloor (1000000 / (freqHz * inject_Z size))) /\
  (forall f : Z, (inject_Z f == freqHz)%Q ->
     BusyLoop.sample_delay size f =
       Ok (Qfloor (1000000 / (freqHz * inject_Z size)))).
Proof.
  intros Hs Hf Hr Hq. split.
  - apply calculateUpdatePeriod_floor; assumption.
  - intros f Ef.
    assert (Fp : 0 < f).
    { rewrite Zlt_Qlt. rewrite Ef. exact Hf. }
    assert (Pp : (0 < freqHz * inject_Z size)%Q).
    { apply Qmult_lt_0_compat; [exact Hf|]. rewrite <- (Zlt_Qlt 0). lia. }
    assert (Ple : f * size <= 1000000).
    { rewrite Zle_Qle, inject_Z_mult, Ef.
      change (inject_Z 1000000) with 1000000%Q.
      destruct Hq as [Q1 _].
      set (P := (freqHz * inject_Z size)%Q) in *.
      apply (Qle_div_mult_l _ _ _ Pp) in Q1. lra. }
    rewrite sample_delay_floor by lia.
    f_equal. apply Qfloor_comp. rewrite Ef. reflexivity.
Qed.

Lemma period_is_floor_witness :
  (SinGen.calculateUpdatePeriod 64 (Fin 100) = Ok 156 /\
   BusyLoop.sample_delay 64 100 = Ok 156) /\
  SinGen.calculateUpdatePeriod 256 (Fin 100) = Ok 39.
Proof.
  split.
  - assert (R : representable binary32 (100 * inject_Z 64)).
    { exists 6400, 0. repeat split; try reflexivity. discriminate. }
    destruct (period_is_floor 64 100) as [A B].
    + split; reflexivity.
    + reflexivity.
    + exact R.
    + split; [discriminate | reflexivity].
    + split; [exact A | apply (B 100); reflexivity].
  - assert (R : representable binary32 (100 * inject_Z 256)).
    { exists 25600, 0. repeat split; try reflexivity. discriminate. }
    destruct (period_is_floor 256 100) as [A _].
    + split; reflexivity.
    + reflexivity.
    + exact R.
    + split; [discriminate | reflexivity].
    + exact A.
Defined.

(** C2 as stated fails on the sketch's own table size: at the [float]
    frequency [3 * 2^-48] Hz the quotient exceeds [2^53], the [double]
    division rounds it to a multiple of 64, and the period differs from the
    floor of the exact quotient. *)
Lemma period_is_floor_counterexample :
  representable binary32 (3 # 281474976710656) /\
  (0 < 3 # 281474976710656)%Q /\
  0 < 256 /\
  (1 <= 1000000 / ((3 # 281474976710656) * inject_Z 256))%Q /\
  SinGen.calculateUpdatePeriod 256 (Fin (3 # 281474976710656)) =
    Ok 366503875925333312 /\
  Qfloor (1000000 / ((3 # 281474976710656) * inject_Z 256)) = 366503875925333333 /\
  SinGen.calculateUpdatePeriod 256 (Fin (3 # 281474976710656)) <>
    Ok (Qfloor (1000000 / ((3 # 281474976710656) * inject_Z 256))).
Proof.
  split; [|split; [|split; [|split; [|split; [|split]]]]].
  - exists 3, (-48). repeat split; try reflexivity. discriminate.
  - reflexivity.
  - reflexivity.
  - discriminate.
  - vm_compute. reflexivity.
  - vm_compute. reflexivity.
  - vm_compute. discriminate.
Qed.

(** With a size that is not a power of two the product itself is rounded:
    three samples at the [float] next above 1000/3 Hz give the period 1000,
    not the floor 999. *)
Example period_rounded_product :
  SinGen.calculateUpdatePeriod 3 (Fin (10922667 # 32768)) = Ok 1000 /\
  Qfloor (1000000 / ((10922667 # 32768) * inject_Z 3)) = 999.
Proof. split; vm_compute; reflexivity. Qed.

(** ** The lookup table *)

Lemma store_length (i : nat) (v : Z) (lut : list Z) :
  length (SinGen.store i v lut) = length lut.
Proof.
  revert i. induction lut as [|h t IH]; intros [|j]; simpl; auto.
Qed.

Lemma nth_store_eq (i : nat) (v : Z) (lut : list Z) :
  (i < length lut)%nat -> nth i (SinGen.store i v lut) 0 = v.
Proof.
  revert i. induction lut as [|h t IH]; intros [|j] H; simpl in *; try lia.
  apply IH. lia.
Qed.

Lemma nth_store_neq (i j : nat) (v : Z) (lut : list Z) :
  i <> j -> nth j (SinGen.store i v lut) 0 = nth j lut 0.
Proof.
  revert i j. induction lut as [|h t IH]; intros [|i] [|j] H; simpl; auto; try lia.
Qed.

Section Table.

Variable LUT_SIZE : Z.
Variable c_sin : fp -> fp.
Hypothesis size_int : 0 < LUT_SIZE < 2 ^ 31.
Hypothesis sin_ok : sine_like c_sin.

Lemma two_pi :
  exists tp, fmul binary64 (Fin 2) SinGen.PI = Fin tp /\ (0 <= tp <= 8)%Q.
Proof.
  eexists. split; [vm_compute; reflexivity|].
  split; vm_compute; discriminate.
Qed.

Lemma float_2p31 : representable binary32 2147483648.
Proof. exists 1, 31. repeat split; try reflexivity. discriminate. Qed.

Lemma double_2p34 : representable binary64 17179869184.
Proof. exists 1, 34. repeat split; try reflexivity. discriminate. Qed.

Lemma index_as_float (i : Z) :
  0 <= i < 2 ^ 31 ->
  exists a, of_Z binary32 i = Fin a /\ (0 <= a <= 2147483648)%Q.
Proof.
  intros Hi.
  assert (I0 : (0 <= inject_Z i)%Q) by (rewrite <- (Zle_Qle 0); lia).
  assert (I1 : (inject_Z i <= 2147483648)%Q)
    by (change 2147483648%Q with (inject_Z 2147483648); rewrite <- Zle_Qle; lia).
  destruct (round_bounded binary32 prec32_pos (inject_Z i) 2147483648) as [R [_ B]].
  - exact float_2p31.
  - unfold Qlt. vm_compute. reflexivity.
  - split; lra.
  - exists (roundQ binary32 (inject_Z i)). split; [exact R|].
    split; [apply roundQ_nonneg; exact I0 | exact B].
Qed.

(** The angle handed to [sin] is a finite number. *)
Lemma angle_finite (i : Z) :
  0 <= i < 2 ^ 31 ->
  exists t,
    fdiv binary64
      (fmul binary64 (fmul binary64 (Fin 2) SinGen.PI) (of_Z binary32 i))
      (of_Z binary32 LUT_SIZE) = Fin t.
Proof.
  intros Hi.
  destruct two_pi as (tp & Etp & Tp0 & Tp8).
  destruct (index_as_float i Hi) as (a & Ea & A0 & A1).
  rewrite Etp, Ea. unfold fmul.
  assert (M0 : (0 <= tp * a)%Q) by (apply Qmult_le_0_compat; assumption).
  assert (M1 : (tp * a <= 17179869184)%Q).
  { apply Qle_trans with (8 * a)%Q; [apply Qmult_le_compat_r; assumption | lra]. }
  destruct (round_bounded binary64 prec64_pos (tp * a) 17179869184) as [R [_ B]].
  - exact double_2p34.
  - unfold Qlt. vm_compute. reflexivity.
  - split; lra.
  - rewrite R. set (y := roundQ binary64 (tp * a)) in *.
    assert (Y0 : (0 <= y)%Q) by (apply roundQ_nonneg; exact M0).
    assert (S1 : (1 <= inject_Z LUT_SIZE)%Q) by (rewrite <- (Zle_Qle 1); lia).
    destruct (round_nonneg_cases binary32 (inject_Z LUT_SIZE)) as [I | F]; [lra | |];
      unfold of_Z; rewrite ?I, ?F.
    + exists 0%Q. reflexivity.
    + set (n := roundQ binary32 (inject_Z LUT_SIZE)).
      assert (N1 : (1 <= n)%Q).
      { apply (roundQ_ge binary32 prec32_pos); [|exact S1].
        exists 1, 0. repeat split; try reflexivity. discriminate. }
      unfold fdiv.
      destruct (Qeq_bool n 0) eqn:E0; [apply Qeq_bool_iff in E0; lra|].
      assert (D0 : (0 <= y / n)%Q) by (apply Qle_shift_div_l; lra).
      assert (D1 : (y / n <= 17179869184)%Q).
      { apply Qle_shift_div_r; [lra|].
        apply Qle_trans with (17179869184 * 1)%Q; [lra|].
        apply Qmult_le_l; [reflexivity | exact N1]. }
      destruct (round_bounded binary64 prec64_pos (y / n) 17179869184) as [R' _].
      * exact double_2p34.
      * unfold Qlt. vm_compute. reflexivity.
      * split; lra.
      * rewrite R'. eexists. reflexivity.
Qed.

Lemma float_one : representable binary32 1.
Proof. exists 1, 0. repeat split; try reflexivity. discriminate. Qed.

Lemma sine_value_range (i : Z) :
  0 <= i < 2 ^ 31 ->
  exists s, SinGen.sine_value LUT_SIZE c_sin i = Fin s /\ (- (1) <= s <= 1)%Q.
Proof.
  intros Hi. unfold SinGen.sine_value.
  destruct (angle_finite i Hi) as (t & Et). rewrite Et.
  destruct (sin_ok t) as (v & Ev & Hv). rewrite Ev.
  unfold SinGen.to_float.
  destruct (round_bounded binary32 prec32_pos v 1) as [R B].
  - exact float_one.
  - unfold Qlt. vm_compute. reflexivity.
  - exact Hv.
  - exists (roundQ binary32 v). split; assumption.
Qed.

Lemma c_round_bounded (p : Q) (b : Z) :
  0 <= b < 2 ^ 31 -> (- inject_Z b <= p <= inject_Z b)%Q ->
  exists r, c_round (Fin p) = Some r /\ - b <= r <= b.
Proof.
  intros Hb [Lo Hi]. unfold c_round.
  set (r := if Qle_bool 0 p then Qfloor (p + (1 # 2)) else Qceiling (p - (1 # 2))).
  assert (R : - b <= r <= b).
  { unfold r. destruct (Qle_bool 0 p) eqn:E.
    - apply Qle_bool_iff in E.
      pose proof (Qfloor_le (p + (1 # 2))) as F1.
      pose proof (Qlt_floor (p + (1 # 2))) as F2.
      rewrite inject_Z_plus in F2. change (inject_Z 1) with 1%Q in F2.
      assert (- 1 < Qfloor (p + (1 # 2))).
      { rewrite Zlt_Qlt. change (inject_Z (-1)) with (- (1))%Q. lra. }
      assert (Qfloor (p + (1 # 2)) < b + 1).
      { rewrite Zlt_Qlt, inject_Z_plus. change (inject_Z 1) with 1%Q. lra. }
      lia.
    - assert (N : (p < 0)%Q).
      { apply Qnot_le_lt. intros H. apply Qle_bool_iff in H. congruence. }
      unfold Qceiling.
      pose proof (Qfloor_le (- (p - (1 # 2)))) as F1.
      pose proof (Qlt_floor (- (p - (1 # 2)))) as F2.
      rewrite inject_Z_plus in F2. change (inject_Z 1) with 1%Q in F2.
      assert (- 1 < Qfloor (- (p - (1 # 2)))).
      { rewrite Zlt_Qlt. change (inject_Z (-1)) with (- (1))%Q. lra. }
      assert (Qfloor (- (p - (1 # 2))) < b + 1).
      { rewrite Zlt_Qlt, inject_Z_plus. change (inject_Z 1) with 1%Q. lra. }
      lia. }
  exists r. split; [|exact R].
  assert (A : (- 2 ^ 31 <=? r) = true) by (apply Z.leb_le; lia).
  assert (B : (r <? 2 ^ 31) = true) by (apply Z.ltb_lt; lia).
  rewrite A, B. reflexivity.
Qed.

(** [round(amplitude_dac * sine_value)] is defined and within the amplitude. *)
Lemma scaled_sine (amplitude_dac i : Z) :
  0 <= amplitude_dac <= 255 -> 0 <= i < 2 ^ 31 ->
  exists r,
    c_round (fmul binary32 (of_Z binary32 amplitude_dac)
               (SinGen.sine_value LUT_SIZE c_sin i)) = Some r /\
    - amplitude_dac <= r <= amplitude_dac.
Proof.
  intros Ha Hi.
  destruct (sine_value_range i Hi) as (s & Es & S0 & S1). rewrite Es.
  assert (A0 : (0 <= inject_Z amplitude_dac)%Q) by (rewrite <- (Zle_Qle 0); lia).
  assert (A1 : (inject_Z amplitude_dac <= 255)%Q)
    by (change 255%Q with (inject_Z 255); rewrite <- Zle_Qle; lia).
  assert (RA : representable binary32 (inject_Z amplitude_dac)).
  { apply representable_Z; [vm_compute; discriminate | simpl; lia]. }
  destruct (round_exact binary32 prec32_pos (inject_Z amplitude_dac)) as (a & Ea & Ha').
  { exact RA. }
  { apply Qabs_of_nonneg_lt; [exact A0 | apply pow2_128_large; lra]. }
  unfold of_Z. rewrite Ea. unfold fmul.
  destruct (round_bounded binary32 prec32_pos (a * s) (inject_Z amplitude_dac))
    as [R B].
  - exact RA.
  - apply pow2_128_large. lra.
  - pose proof (Qmult_le_compat_r _ _ _ S0 A0) as L1.
    pose proof (Qmult_le_compat_r _ _ _ S1 A0) as L2.
    rewrite Ha'. split; lra.
  - rewrite R. apply c_round_bounded; [lia | exact B].
Qed.

Lemma clamp_byte (x : Z) :
  (if x <? 0 then 0 else if x >? 255 then 255 else x) mod 256 = spec_clamp x 0 255.
Proof.
  unfold spec_clamp.
  destruct (x <? 0) eqn:A.
  - apply Z.ltb_lt in A. rewrite Z.mod_small; lia.
  - apply Z.ltb_ge in A. destruct (x >? 255) eqn:B.
    + rewrite Z.gtb_ltb in B. apply Z.ltb_lt in B. rewrite Z.mod_small; lia.
    + rewrite Z.gtb_ltb in B. apply Z.ltb_ge in B. rewrite Z.mod_small; lia.
Qed.

(** The loop body stores the clamped sum, for every index of an [int]. *)
Lemma lut_entry_ok (offset_dac amplitude_dac i : Z) :
  0 <= amplitude_dac <= 255 -> 0 <= i < 2 ^ 31 ->
  exists r,
    c_round (fmul binary32 (of_Z binary32 amplitude_dac)
               (SinGen.sine_value LUT_SIZE c_sin i)) = Some r /\
    - amplitude_dac <= r <= amplitude_dac /\
    SinGen.lut_entry LUT_SIZE c_sin offset_dac amplitude_dac i =
      Ok (spec_clamp (offset_dac + r) 0 255).
Proof.
  intros Ha Hi.
  destruct (scaled_sine amplitude_dac i Ha Hi) as (r & Er & Hr).
  exists r. split; [exact Er|]. split; [exact Hr|].
  unfold SinGen.lut_entry. rewrite Er. simpl. rewrite clamp_byte. reflexivity.
Qed.

Lemma lut_entry_entry (offset_dac amplitude_dac i : Z) :
  0 <= amplitude_dac <= 255 -> 0 <= i < 2 ^ 31 ->
  SinGen.lut_entry LUT_SIZE c_sin offset_dac amplitude_dac i =
    Ok (entry LUT_SIZE c_sin offset_dac amplitude_dac i) /\
  0 <= entry LUT_SIZE c_sin offset_dac amplitude_dac i <= 255.
Proof.
  intros Ha Hi. unfold entry.
  destruct (lut_entry_ok offset_dac amplitude_dac i Ha Hi) as (r & _ & _ & E).
  rewrite E. split; [reflexivity|]. unfold spec_clamp. lia.
Qed.

Lemma fill_from_ok (offset_dac amplitude_dac : Z) (n : nat) :
  0 <= amplitude_dac <= 255 ->
  forall (i : Z) (lut : list Z),
    0 <= i -> i + Z.of_nat n <= 2 ^ 31 ->
    exists lut',
      SinGen.fill_from LUT_SIZE c_sin offset_dac amplitude_dac n i lut = Ok lut' /\
      length lut' = length lut /\
      forall j : Z,
        0 <= j -> (Z.to_nat j < length lut)%nat ->
        nth (Z.to_nat j) lut' 0 =
          if (i <=? j) && (j <? i + Z.of_nat n)
          then entry LUT_SIZE c_sin offset_dac amplitude_dac j
          else nth (Z.to_nat j) lut 0.
Proof.
  intros Ha. induction n as [|n IH]; intros i lut Hi Hn.
  - exists lut. split; [reflexivity|]. split; [reflexivity|].
    intros j Hj _.
    destruct ((i <=? j) && (j <? i + Z.of_nat 0)) eqn:E; [|reflexivity].
    apply andb_prop in E. destruct E as [E1 E2].
    apply Z.leb_le in E1. apply Z.ltb_lt in E2. lia.
  - simpl SinGen.fill_from.
    destruct (lut_entry_entry offset_dac amplitude_dac i Ha) as [E _]; [lia|].
    rewrite E. simpl bind.
    destruct (IH (i + 1) (SinGen.store (Z.to_nat i) (entry LUT_SIZE c_sin offset_dac amplitude_dac i) lut))
      as (lut' & F & L & N); [lia | lia |].
    exists lut'. split; [exact F|].
    rewrite store_length in L. split; [exact L|].
    intros j Hj Hlen.
    rewrite N by (rewrite ?store_length; assumption).
    destruct (Z.eq_dec i j) as [-> | NE].
    + assert (A : (j + 1 <=? j) = false) by (apply Z.leb_gt; lia).
      assert (B : (j <=? j) = true) by (apply Z.leb_le; lia).
      assert (C : (j <? j + Z.of_nat (S n)) = true) by (apply Z.ltb_lt; lia).
      rewrite A, B, C. simpl. apply nth_store_eq. exact Hlen.
    + rewrite nth_store_neq by lia.
      destruct (i + 1 <=? j) eqn:A; destruct (i <=? j) eqn:B;
        destruct (j <? i + 1 + Z.of_nat n) eqn:C;
        destruct (j <? i + Z.of_nat (S n)) eqn:D; simpl; try reflexivity;
        rewrite ?Z.leb_le, ?Z.leb_gt, ?Z.ltb_lt, ?Z.ltb_ge in *; lia.
Qed.

(** The loop of [generateSineLUT] fills the whole table. *)
Lemma fill_ok (offset_dac amplitude_dac : Z) (lut : list Z) :
  0 <= amplitude_dac <= 255 -> length lut = Z.to_nat LUT_SIZE ->
  exists lut',
    SinGen.fill LUT_SIZE c_sin offset_dac amplitude_dac lut = Ok lut' /\
    length lut' = Z.to_nat LUT_SIZE /\
    forall i, 0 <= i < LUT_SIZE ->
      SinGen.sampleAt lut' i = entry LUT_SIZE c_sin offset_dac amplitude_dac i.
Proof.
  intros Ha Hl. unfold SinGen.fill.
  destruct (fill_from_ok offset_dac amplitude_dac (Z.to_nat LUT_SIZE) Ha 0 lut)
    as (lut' & F & L & N); [lia | lia |].
  exists lut'. split; [exact F|]. split; [lia|].
  intros i Hi. unfold SinGen.sampleAt.
  rewrite N by lia.
  assert (A : (0 <=? i) = true) by (apply Z.leb_le; lia).
  assert (B : (i <? 0 + Z.of_nat (Z.to_nat LUT_SIZE)) = true) by (apply Z.ltb_lt; lia).
  rewrite A, B. reflexivity.
Qed.

Lemma Forall_sampleAt (P : Z -> Prop) (lut : list Z) :
  length lut = Z.to_nat LUT_SIZE ->
  (forall i, 0 <= i < LUT_SIZE -> P (SinGen.sampleAt lut i)) -> Forall P lut.
Proof.
  intros L H. apply Forall_forall. intros v Hv.
  destruct (In_nth lut v 0 Hv) as (k & Hk & Ek).
  rewrite <- Ek.
  replace k with (Z.to_nat (Z.of_nat k)) by lia.
  apply (H (Z.of_nat k)). lia.
Qed.

Lemma sine_value_zero :
  c_sin (Fin 0) = Fin 0 -> SinGen.sine_value LUT_SIZE c_sin 0 = Fin 0.
Proof.
  intros H0. unfold SinGen.sine_value.
  assert (A : fmul binary64 (fmul binary64 (Fin 2) SinGen.PI) (of_Z binary32 0) = Fin 0)
    by (vm_compute; reflexivity).
  rewrite A.
  assert (S1 : (1 <= inject_Z LUT_SIZE)%Q) by (rewrite <- (Zle_Qle 1); lia).
  assert (T : fdiv binary64 (Fin 0) (of_Z binary32 LUT_SIZE) = Fin 0).
  { unfold of_Z.
    destruct (round_nonneg_cases binary32 (inject_Z LUT_SIZE)) as [I | F]; [lra | |];
      rewrite ?I, ?F.
    - reflexivity.
    - set (n := roundQ binary32 (inject_Z LUT_SIZE)).
      assert (N1 : (1 <= n)%Q)
        by (apply (roundQ_ge binary32 prec32_pos); [exact float_one | exact S1]).
      unfold fdiv.
      destruct (Qeq_bool n 0) eqn:E0; [apply Qeq_bool_iff in E0; lra|].
      rewrite (roundQ_comp_round binary64 (0 / n) 0) by (field; lra).
      vm_compute. reflexivity. }
  rewrite T, H0. vm_compute. reflexivity.
Qed.

Lemma entry_zero (offset_dac amplitude_dac : Z) :
  c_sin (Fin 0) = Fin 0 -> 0 <= offset_dac <= 255 -> 0 <= amplitude_dac <= 255 ->
  entry LUT_SIZE c_sin offset_dac amplitude_dac 0 = offset_dac.
Proof.
  intros H0 Ho Ha. unfold entry, SinGen.lut_entry.
  rewrite (sine_value_zero H0).
  assert (A0 : (0 <= inject_Z amplitude_dac)%Q) by (rewrite <- (Zle_Qle 0); lia).
  assert (A1 : (inject_Z amplitude_dac <= 255)%Q)
    by (change 255%Q with (inject_Z 255); rewrite <- Zle_Qle; lia).
  destruct (round_exact binary32 prec32_pos (inject_Z amplitude_dac)) as (a & Ea & _).
  { apply representable_Z; [vm_compute; discriminate | simpl; lia]. }
  { apply Qabs_of_nonneg_lt; [exact A0 | apply pow2_128_large; lra]. }
  unfold of_Z. rewrite Ea. unfold fmul.
  rewrite (roundQ_comp_round binary32 (a * 0) 0) by ring.
  assert (R : c_round (round binary32 0) = Some 0) by (vm_compute; reflexivity).
  rewrite R. simpl. rewrite clamp_byte. unfold spec_clamp. lia.
Qed.

(** [generateSineLUT] returns, with a table of bytes filled by the loop
    body from the sketch's own codes 128 and 39. *)
Lemma generateSineLUT_ok (s : SinGen.state) :
  length (SinGen.sineLUT s) = Z.to_nat LUT_SIZE ->
  exists lut,
    SinGen.generateSineLUT LUT_SIZE c_sin s = Ok (SinGen.set_sineLUT lut s) /\
    length lut = Z.to_nat LUT_SIZE /\
    forall i, 0 <= i < LUT_SIZE -> SinGen.sampleAt lut i = entry LUT_SIZE c_sin 128 39 i.
Proof.
  intros L. unfold SinGen.generateSineLUT, SinGen.generateSineLUT_of.
  assert (O : SinGen.offset_code_of SinGen.V_OUT_OFFSET SinGen.V_REF = Ok 128)
    by (vm_compute; reflexivity).
  assert (A : SinGen.amplitude_code_of SinGen.V_OUT_PEAK_TO_PEAK SinGen.V_REF = Ok 39)
    by (vm_compute; reflexivity).
  rewrite O, A. simpl bind.
  destruct (fill_ok 128 39 (SinGen.sineLUT s)) as (lut & F & Ll & N); [lia | exact L |].
  exists lut. rewrite F. simpl. repeat split; assumption.
Qed.

Lemma table_bytes (offset_dac amplitude_dac : Z) (lut : list Z) :
  0 <= amplitude_dac <= 255 ->
  length lut = Z.to_nat LUT_SIZE ->
  (forall i, 0 <= i < LUT_SIZE ->
     SinGen.sampleAt lut i = entry LUT_SIZE c_sin offset_dac amplitude_dac i) ->
  Forall (fun v => 0 <= v <= 255) lut.
Proof.
  intros Ha L N. apply Forall_sampleAt; [exact L|].
  intros i Hi. rewrite (N i Hi).
  apply lut_entry_entry; [exact Ha | lia].
Qed.

(** [setup] establishes the invariant of playback. *)
Lemma setup_wf (tb : option SinGen.hw_timer_t) (s s' : SinGen.state) :
  SinGen.lutIndex s = 0 ->
  length (SinGen.sineLUT s) = Z.to_nat LUT_SIZE ->
  SinGen.setup LUT_SIZE c_sin tb s = Ok s' -> wf LUT_SIZE s'.
Proof.
  intros I0 Hl. unfold SinGen.setup.
  destruct (generateSineLUT_ok s Hl) as (lut & G & L & N).
  rewrite G. cbn [bind].
  assert (B : byte_table LUT_SIZE lut).
  { split; [exact L|].
    apply Forall_impl with (P := fun v => 0 <= v <= 255); [intros v Hv; lia|].
    apply (table_bytes 128 39); [lia | exact L | exact N]. }
  destruct tb as [t|]; cbn [SinGen.timer SinGen.set_timer]; [|discriminate].
  cbn [SinGen.targetFrequency SinGen.timerAttachInterrupt SinGen.on_timer
       SinGen.set_timer SinGen.set_sineLUT].
  destruct (SinGen.calculateUpdatePeriod LUT_SIZE (SinGen.targetFrequency s)) as [p | |].
  - cbn [bind SinGen.updatePeriodMicros SinGen.set_updatePeriodMicros].
    destruct (p >? 0); intros H; injection H as <-.
    + split; [cbn [SinGen.lutIndex SinGen.timerAlarm SinGen.on_timer SinGen.set_timer
                   SinGen.set_updatePeriodMicros SinGen.timerAttachInterrupt
                   SinGen.set_sineLUT]; rewrite I0; lia | exact B].
    + split; [cbn [SinGen.lutIndex SinGen.timerDetachInterrupt SinGen.on_timer
                   SinGen.set_timer SinGen.set_updatePeriodMicros
                   SinGen.timerAttachInterrupt SinGen.set_sineLUT]; rewrite I0; lia
             | exact B].
  - cbn [bind]. intros H. discriminate H.
  - cbn [bind]. intros H. discriminate H.
Qed.

End Table.

(** *** The reference sine *)

Lemma unit_clamp_range (v : Q) : (- (1) <= unit_clamp v <= 1)%Q.
Proof.
  unfold unit_clamp.
  destruct (Qle_bool v (- (1))) eqn:A; [split; discriminate|].
  destruct (Qle_bool 1 v) eqn:B; [split; discriminate|].
  split; apply Qlt_le_weak, Qnot_le_lt; intros H; apply Qle_bool_iff in H; congruence.
Qed.

Lemma sin_ref_sine_like : sine_like sin_ref.
Proof.
  intros q. unfold sin_ref.
  set (v := unit_clamp _).
  destruct (round_bounded binary64 prec64_pos v 1) as [R B].
  - exists 1, 0. repeat split; try reflexivity. discriminate.
  - unfold Qlt. vm_compute. reflexivity.
  - apply unit_clamp_range.
  - exists (roundQ binary64 v). split; assumption.
Qed.

Lemma sin_ref_zero : sin_ref (Fin 0) = Fin 0.
Proof. vm_compute. reflexivity. Qed.

(** C4. For every table size (a positive [int]) and every pair of offset
    and amplitude codes, also those whose sum leaves the code range such
    as offset 250 with amplitude 100, the loop of the table builder
    returns a table of that size whose entries all lie in [[0, 255]]: a
    sample out of range is clamped, never wrapped or rejected. *)
Theorem table_codes_in_range
    (size : Z) (c_sin : fp -> fp) (offset amplitude : Z) (lut : list Z) :
  sine_like c_sin ->
  0 < size < 2 ^ 31 ->
  0 <= offset <= 255 -> 0 <= amplitude <= 255 ->
  length lut = Z.to_nat size ->
  exists lut',
    SinGen.fill size c_sin offset amplitude lut = Ok lut' /\
    length lut' = Z.to_nat size /\
    Forall (fun v => 0 <= v <= 255) lut' /\
    forall i, 0 <= i < size ->
      exists r,
        c_round (fmul binary32 (of_Z binary32 amplitude)
                   (SinGen.sine_value size c_sin i)) = Some r /\
        SinGen.sampleAt lut' i = spec_clamp (offset + r) 0 255.
Proof.
  intros Hsin Hsize Ho Ha Hl.
  destruct (fill_ok size c_sin Hsize Hsin offset amplitude lut Ha Hl)
    as (lut' & F & L & N).
  exists lut'. split; [exact F|]. split; [exact L|]. split.
  - apply (table_bytes size c_sin Hsize Hsin offset amplitude); assumption.
  - intros i Hi.
    destruct (lut_entry_ok size c_sin Hsize Hsin offset amplitude i Ha) as (r & Er & _ & E);
      [lia|].
    exists r. split; [exact Er|].
    rewrite (N i Hi). unfold entry. rewrite E. reflexivity.
Qed.

Lemma table_codes_in_range_witness :
  exists lut',
    SinGen.fill 256 sin_ref 250 100 (repeat 0 256%nat) = Ok lut' /\
    length lut' = 256%nat /\
    Forall (fun v => 0 <= v <= 255) lut'.
Proof.
  destruct (table_codes_in_range 256 sin_ref 250 100 (repeat 0 256%nat))
    as (lut' & F & L & B & _).
  - exact sin_ref_sine_like.
  - split; reflexivity.
  - split; discriminate.
  - split; discriminate.
  - apply repeat_length.
  - exists lut'. split; [exact F|]. split; [exact L | exact B].
Defined.



(** C10. Whatever the table size and the offset and amplitude codes, the
    sample at index 0 is the offset code itself, hence within one code of
    it: the sine of 0 is 0 and adds nothing at phase 0. *)
Theorem sample_zero_is_offset
    (size : Z) (c_sin : fp -> fp) (offset amplitude : Z) (lut : list Z) :
  sine_like c_sin -> c_sin (Fin 0) = Fin 0 ->
  0 < size < 2 ^ 31 ->
  0 <= offset <= 255 -> 0 <= amplitude <= 255 ->
  length lut = Z.to_nat size ->
  exists lut',
    SinGen.fill size c_sin offset amplitude lut = Ok lut' /\
    SinGen.sampleAt lut' 0 = offset /\
    Z.abs (SinGen.sampleAt lut' 0 - offset) <= 1.
Proof.
  intros Hsin H0 Hsize Ho Ha Hl.
  destruct (fill_ok size c_sin Hsize Hsin offset amplitude lut Ha Hl)
    as (lut' & F & L & N).
  exists lut'. split; [exact F|].
  assert (E : SinGen.sampleAt lut' 0 = offset).
  { rewrite (N 0) by lia. apply entry_zero; assumption. }
  split; [exact E|]. rewrite E. lia.
Qed.

Lemma sample_zero_is_offset_witness :
  exists lut',
    SinGen.fill 256 sin_ref 128 39 (repeat 0 256%nat) = Ok lut' /\
    SinGen.sampleAt lut' 0 = 128 /\
    Z.abs (SinGen.sampleAt lut' 0 - 128) <= 1.
Proof.
  apply (sample_zero_is_offset 256 sin_ref 128 39 (repeat 0 256%nat)).
  - exact sin_ref_sine_like.
  - exact sin_ref_zero.
  - split; reflexivity.
  - split; discriminate.
  - split; discriminate.
  - apply repeat_length.
Defined.

(** ** Playback *)

Lemma offset_code_value : SinGen.offset_code = Ok 128.
Proof. vm_compute. reflexivity. Qed.

Lemma amplitude_code_value : SinGen.amplitude_code = Ok 39.
Proof. vm_compute. reflexivity. Qed.

Section Playback.

Variable LUT_SIZE : Z.

(** What [reconfigure] does, by the period it computes. *)
Lemma reconfigure_cases (s : SinGen.state) :
  SinGen.reconfigure LUT_SIZE s =
  (p <- SinGen.calculateUpdatePeriod LUT_SIZE (SinGen.targetFrequency s) ;;
   Ok (SinGen.set_updateFrequency false
         (if p >? 0
          then SinGen.timerAttachInterrupt
                 (SinGen.timerAlarm p true 0
                    (SinGen.set_updatePeriodMicros p (SinGen.timerDetachInterrupt s)))
          else SinGen.dacWrite 128
                 (SinGen.set_updatePeriodMicros p (SinGen.timerDetachInterrupt s))))).
Proof.
  unfold SinGen.reconfigure. rewrite offset_code_value.
  change (SinGen.targetFrequency (SinGen.timerDetachInterrupt s))
    with (SinGen.targetFrequency s).
  destruct (SinGen.calculateUpdatePeriod LUT_SIZE (SinGen.targetFrequency s)) as [p | |];
    cbn [bind]; try reflexivity.
  cbn [SinGen.updatePeriodMicros SinGen.set_updatePeriodMicros].
  destruct (p >? 0); reflexivity.
Qed.

Lemma reconfigure_frame (s s' : SinGen.state) :
  SinGen.reconfigure LUT_SIZE s = Ok s' ->
  SinGen.lutIndex s' = SinGen.lutIndex s /\ SinGen.sineLUT s' = SinGen.sineLUT s.
Proof.
  rewrite reconfigure_cases.
  destruct (SinGen.calculateUpdatePeriod LUT_SIZE (SinGen.targetFrequency s)) as [p | |];
    simpl; try discriminate.
  intros H. injection H as <-. destruct (p >? 0); simpl; auto.
Qed.

Lemma loop_frame (input : option fp) (s s' : SinGen.state) :
  SinGen.loop LUT_SIZE input s = Ok s' ->
  SinGen.lutIndex s' = SinGen.lutIndex s /\ SinGen.sineLUT s' = SinGen.sineLUT s.
Proof.
  unfold SinGen.loop.
  set (s1 := match input with
             | Some newFreq =>
                 if fge newFreq (Fin 0)
                 then SinGen.set_updateFrequency true (SinGen.set_targetFrequency newFreq s)
                 else s
             | None => s
             end).
  assert (F : SinGen.lutIndex s1 = SinGen.lutIndex s /\ SinGen.sineLUT s1 = SinGen.sineLUT s).
  { unfold s1. destruct input as [x|]; [destruct (fge x (Fin 0))|]; simpl; auto. }
  destruct (SinGen.updateFrequency s1).
  - intros H. apply reconfigure_frame in H. destruct F, H. split; congruence.
  - intros H. injection H as <-. exact F.
Qed.

Lemma sampleAt_byte (s : SinGen.state) :
  wf LUT_SIZE s ->
  0 <= SinGen.sampleAt (SinGen.sineLUT s) (SinGen.lutIndex s) < 256.
Proof.
  intros [Hi [Hl Hb]]. unfold SinGen.sampleAt.
  rewrite Forall_forall in Hb. apply Hb. apply nth_In. lia.
Qed.

Lemma onTimer_spec (s : SinGen.state) :
  wf LUT_SIZE s ->
  SinGen.dac (SinGen.onTimer LUT_SIZE s) =
    SinGen.dac s ++ [SinGen.sampleAt (SinGen.sineLUT s) (SinGen.lutIndex s)] /\
  SinGen.lutIndex (SinGen.onTimer LUT_SIZE s) = (SinGen.lutIndex s + 1) mod LUT_SIZE /\
  SinGen.sineLUT (SinGen.onTimer LUT_SIZE s) = SinGen.sineLUT s.
Proof.
  intros W. pose proof (sampleAt_byte s W) as B. destruct W as [Hi _].
  unfold SinGen.onTimer. simpl.
  destruct (SinGen.lutIndex s + 1 >=? LUT_SIZE) eqn:E; simpl;
    rewrite (Z.mod_small _ 256) by exact B.
  - apply Z.geb_le in E.
    assert (I : SinGen.lutIndex s + 1 = LUT_SIZE) by lia.
    rewrite I, Z.mod_same by lia. auto.
  - rewrite Z.geb_leb in E. apply Z.leb_gt in E.
    rewrite Z.mod_small by lia. auto.
Qed.

Lemma onTimer_wf (s : SinGen.state) : wf LUT_SIZE s -> wf LUT_SIZE (SinGen.onTimer LUT_SIZE s).
Proof.
  intros W. destruct (onTimer_spec s W) as (_ & I & T).
  destruct W as [Hi Ht]. split.
  - rewrite I. apply Z.mod_pos_bound. lia.
  - rewrite T. exact Ht.
Qed.

Lemma tick_wf (s : SinGen.state) : wf LUT_SIZE s -> wf LUT_SIZE (SinGen.tick LUT_SIZE s).
Proof.
  intros W. unfold SinGen.tick. destruct (SinGen.running s); [apply onTimer_wf|]; exact W.
Qed.

(** The index stays within the table along every run. *)
Lemma run_wf (es : list SinGen.event) :
  forall s s', wf LUT_SIZE s -> SinGen.run LUT_SIZE es s = Ok s' -> wf LUT_SIZE s'.
Proof.
  induction es as [|e es IH]; intros s s' W H; simpl in H.
  - injection H as <-. exact W.
  - destruct e as [|input]; simpl in H.
    + apply (IH _ _ (tick_wf s W) H).
    + destruct (SinGen.loop LUT_SIZE input s) as [s1 | |] eqn:L; simpl in H; try discriminate.
      apply (IH s1 s'); [|exact H].
      destruct (loop_frame input s s1 L) as [A B].
      unfold wf in *. rewrite A, B. exact W.
Qed.

Lemma running_detached (s : SinGen.state) :
  SinGen.running (SinGen.timerDetachInterrupt s) = false.
Proof.
  unfold SinGen.running, SinGen.timerDetachInterrupt, SinGen.on_timer. simpl.
  destruct (SinGen.timer s); reflexivity.
Qed.

(** A frequency that [loop] accepts and that is not positive is zero. *)
Lemma accepted_not_positive (x : fp) :
  fge x (Fin 0) = true -> positive x = false -> fle x (Fin 0) = true.
Proof.
  destruct x as [|[|]|q]; simpl; try discriminate.
  intros _ H. destruct (Qle_bool q 0); [reflexivity | discriminate].
Qed.

Lemma accepted_cons (e : SinGen.event) (es : list SinGen.event) :
  accepted (e :: es) = (accepted [e] + accepted es)%nat.
Proof.
  destruct e as [|[x|]]; simpl; try reflexivity.
  rewrite Nat.add_0_r. reflexivity.
Qed.

(** At rest, an event that brings no positive frequency leaves the
    generator at rest; it writes the rest code once if it is an accepted
    command, and nothing otherwise. *)
Lemma rest_step (e : SinGen.event) (s : SinGen.state) :
  SinGen.updateFrequency s = false -> SinGen.running s = false ->
  (forall x, e = SinGen.Loop (Some x) -> positive x = false) ->
  exists s',
    SinGen.step LUT_SIZE e s = Ok s' /\
    SinGen.updateFrequency s' = false /\ SinGen.running s' = false /\
    SinGen.dac s' = SinGen.dac s ++ repeat 128 (accepted [e]).
Proof.
  intros U R P. destruct e as [|[x|]]; simpl SinGen.step.
  - exists s. unfold SinGen.tick. rewrite R. simpl. rewrite app_nil_r. auto.
  - unfold SinGen.loop.
    destruct (fge x (Fin 0)) eqn:G.
    + cbn [SinGen.updateFrequency SinGen.set_updateFrequency].
      rewrite reconfigure_cases.
      cbn [SinGen.targetFrequency SinGen.set_updateFrequency SinGen.set_targetFrequency].
      rewrite (calculateUpdatePeriod_nonpos LUT_SIZE x)
        by (apply accepted_not_positive; [exact G | apply P; reflexivity]).
      cbn [bind]. change (0 >? 0) with false. cbv iota.
      eexists. split; [reflexivity|]. split; [reflexivity|].
      split; [apply running_detached|].
      cbn [accepted]. rewrite G. reflexivity.
    + rewrite U. exists s. cbn [accepted]. rewrite G. simpl. rewrite app_nil_r. auto.
  - unfold SinGen.loop. rewrite U. exists s. simpl. rewrite app_nil_r. auto.
Qed.

Lemma rest_run (es : list SinGen.event) :
  forall s,
    SinGen.updateFrequency s = false -> SinGen.running s = false ->
    no_positive es ->
    exists s',
      SinGen.run LUT_SIZE es s = Ok s' /\
      SinGen.updateFrequency s' = false /\ SinGen.running s' = false /\
      SinGen.dac s' = SinGen.dac s ++ repeat 128 (accepted es).
Proof.
  induction es as [|e es IH]; intros s U R P.
  - exists s. simpl. rewrite app_nil_r. auto.
  - destruct (rest_step e s U R) as (s1 & S1 & U1 & R1 & D1).
    { intros x E. apply P. rewrite E. left. reflexivity. }
    destruct (IH s1 U1 R1) as (s' & S' & U' & R' & D').
    { intros x I. apply P. right. exact I. }
    exists s'. simpl SinGen.run. rewrite S1. cbn [bind].
    split; [exact S'|]. split; [exact U'|]. split; [exact R'|].
    rewrite D', D1, (accepted_cons e es), repeat_app, app_assoc. reflexivity.
Qed.

End Playback.

(** C6. Each invocation of the tick callback first emits the table entry
    at the cursor and then sets the cursor to [(cursor + 1) mod size]; the
    cursor is a valid index after every tick, and along every sequence of
    ticks and passes of [loop].  The busy loop of the second sketch emits
    and advances in the same way. *)
Theorem tick_emits_and_advances (size : Z) (s : SinGen.state) :
  wf size s ->
  SinGen.dac (SinGen.onTimer size s) =
    SinGen.dac s ++ [SinGen.sampleAt (SinGen.sineLUT s) (SinGen.lutIndex s)] /\
  SinGen.lutIndex (SinGen.onTimer size s) = (SinGen.lutIndex s + 1) mod size /\
  0 <= SinGen.lutIndex (SinGen.onTimer size s) < size /\
  (forall es s', SinGen.run size es s = Ok s' -> 0 <= SinGen.lutIndex s' < size) /\
  (forall (freq : Z) (b : BusyLoop.state),
     0 <= BusyLoop.index b < size -> 0 < freq -> freq * size <= 1000000 ->
     exists b',
       BusyLoop.loop size freq b = Ok b' /\
       BusyLoop.trace b' =
         BusyLoop.trace b ++
           [BusyLoop.Write (nth (Z.to_nat (BusyLoop.index b)) (BusyLoop.sineLUT b) 0 mod 256);
            BusyLoop.Delay (1000000 / (freq * size))] /\
       BusyLoop.index b' = (BusyLoop.index b + 1) mod size /\
       0 <= BusyLoop.index b' < size).
Proof.
  intros W. destruct (onTimer_spec size s W) as (D & I & _).
  split; [exact D|]. split; [exact I|]. split; [apply (onTimer_wf size s W)|]. split.
  - intros es s' R. apply (run_wf size es s s' W R).
  - intros freq b Hb Hf Hp.
    assert (Hs : 0 < size) by lia.
    unfold BusyLoop.loop. simpl.
    assert (A : (size =? 0) = false) by (apply Z.eqb_neq; lia).
    assert (B : BusyLoop.int_range (BusyLoop.index b + 1) = true).
    { unfold BusyLoop.int_range. apply andb_true_intro. split.
      - apply Z.leb_le. lia.
      - apply Z.ltb_lt. nia. }
    rewrite A, B. simpl.
    unfold BusyLoop.sample_delay, BusyLoop.int_range.
    assert (P0 : 0 < freq * size) by nia.
    assert (C1 : (- 2 ^ 31 <=? freq * size) = true) by (apply Z.leb_le; lia).
    assert (C2 : (freq * size <? 2 ^ 31) = true) by (apply Z.ltb_lt; lia).
    assert (C3 : (freq * size =? 0) = false) by (apply Z.eqb_neq; lia).
    rewrite C1, C2, C3. simpl.
    eexists. split; [reflexivity|]. simpl.
    rewrite Z.quot_div_nonneg by lia.
    rewrite Z.rem_mod_nonneg by lia.
    assert (Q0 : 0 <= 1000000 / (freq * size)) by (apply Z.div_pos; lia).
    assert (Q1 : 1000000 / (freq * size) <= 1000000).
    { apply Z.div_le_upper_bound; nia. }
    rewrite (Z.mod_small (1000000 / (freq * size))) by lia.
    rewrite <- app_assoc. simpl.
    split; [reflexivity|]. split; [reflexivity|].
    apply Z.mod_pos_bound. lia.
Qed.

Lemma tick_emits_and_advances_witness :
  SinGen.dac (SinGen.onTimer 4 four_samples) = [128] /\
  SinGen.lutIndex (SinGen.onTimer 4 four_samples) = 1 /\
  SinGen.lutIndex (SinGen.onTimer 4 (SinGen.set_lutIndex 3 four_samples)) = 0.
Proof.
  assert (B : byte_table 4 [128; 167; 128; 89]).
  { split; [reflexivity|]. repeat constructor; discriminate. }
  assert (W0 : wf 4 four_samples).
  { split; [split; [discriminate | reflexivity] | exact B]. }
  assert (W3 : wf 4 (SinGen.set_lutIndex 3 four_samples)).
  { split; [split; [discriminate | reflexivity] | exact B]. }
  destruct (tick_emits_and_advances 4 four_samples W0) as (D & I & _).
  destruct (tick_emits_and_advances 4 _ W3) as (_ & I3 & _).
  split; [exact D|]. split; [exact I | exact I3].
Defined.

(** C3. Reconfiguring never moves the phase cursor: whatever cursor the
    ticks have reached and whatever frequency is requested, the cursor
    (and the table) are the same when [reconfigure] returns, and it does
    return whenever the period of the frequency is defined; a whole pass
    of [loop] leaves the cursor alone as well. *)
Theorem reconfigure_keeps_cursor
    (size : Z) (n : nat) (s : SinGen.state) (freqHz : fp) :
  let sC := Nat.iter n (SinGen.tick size) s in
  (forall s', SinGen.reconfigure size (SinGen.set_targetFrequency freqHz sC) = Ok s' ->
     SinGen.lutIndex s' = SinGen.lutIndex sC /\ SinGen.sineLUT s' = SinGen.sineLUT sC) /\
  (forall p, SinGen.calculateUpdatePeriod size freqHz = Ok p ->
     exists s',
       SinGen.reconfigure size (SinGen.set_targetFrequency freqHz sC) = Ok s' /\
       SinGen.updatePeriodMicros s' = p /\
       SinGen.lutIndex s' = SinGen.lutIndex sC) /\
  (forall input s', SinGen.loop size input sC = Ok s' ->
     SinGen.lutIndex s' = SinGen.lutIndex sC).
Proof.
  intros sC. split; [|split].
  - intros s' H. apply (reconfigure_frame size) in H. exact H.
  - intros p Hp. rewrite reconfigure_cases.
    cbn [SinGen.targetFrequency SinGen.set_targetFrequency]. rewrite Hp. cbn [bind].
    eexists. split; [reflexivity|].
    destruct (p >? 0); split; reflexivity.
  - intros input s' H. apply (loop_frame size) in H. apply H.
Qed.

Lemma reconfigure_keeps_cursor_witness :
  exists s',
    SinGen.reconfigure 256
      (SinGen.set_targetFrequency (Fin 200) (Nat.iter 3 (SinGen.tick 256) playing)) = Ok s' /\
    SinGen.updatePeriodMicros s' = 19 /\
    SinGen.lutIndex s' = 3.
Proof.
  destruct (reconfigure_keeps_cursor 256 3 playing (Fin 200)) as (_ & H & _).
  apply (H 19). vm_compute. reflexivity.
Defined.

(** C8, as the sketch has it.  When [reconfigure] computes the period 0 it
    leaves the callback detached, without programming the alarm again, and
    writes the offset code 128 to the output exactly once.  As long as no
    positive frequency is supplied after that, no table sample is emitted
    and the generator stays at rest; the only further writes are one more
    write of the same code 128 for every further command the loop accepts,
    that is for every repeated frequency 0. *)
Theorem stop_writes_rest_code (size : Z) (s s1 : SinGen.state) :
  SinGen.reconfigure size s = Ok s1 ->
  SinGen.updatePeriodMicros s1 = 0 ->
  SinGen.timer s1 =
    option_map (fun t => SinGen.Timer false (SinGen.alarm t)) (SinGen.timer s) /\
  SinGen.running s1 = false /\
  SinGen.dac s1 = SinGen.dac s ++ [128] /\
  forall es, no_positive es ->
    exists s2,
      SinGen.run size es s1 = Ok s2 /\
      SinGen.running s2 = false /\
      SinGen.dac s2 = SinGen.dac s1 ++ repeat 128 (accepted es).
Proof.
  intros H P. rewrite reconfigure_cases in H.
  destruct (SinGen.calculateUpdatePeriod size (SinGen.targetFrequency s)) as [p | |];
    cbn [bind] in H; try discriminate.
  injection H as <-.
  destruct (p >? 0) eqn:G.
  - exfalso. cbn in P. subst p. discriminate.
  - split; [reflexivity|]. split; [apply running_detached|]. split; [reflexivity|].
    intros es Hes.
    destruct (rest_run size es
                (SinGen.set_updateFrequency false
                   (SinGen.dacWrite 128
                      (SinGen.set_updatePeriodMicros p (SinGen.timerDetachInterrupt s)))))
      as (s2 & R & _ & Rn & D).
    + reflexivity.
    + apply running_detached.
    + exact Hes.
    + exists s2. split; [exact R|]. split; [exact Rn | exact D].
Qed.

Lemma stop_writes_rest_code_witness :
  SinGen.running stopped = false /\
  SinGen.dac stopped = [128] /\
  exists s2,
    SinGen.run 256 [SinGen.Tick; SinGen.Loop None; SinGen.Loop (Some (Fin (- (3)))); SinGen.Tick]
      stopped = Ok s2 /\
    SinGen.dac s2 = [128].
Proof.
  destruct (stop_writes_rest_code 256
              (SinGen.set_targetFrequency (Fin 0) playing) stopped)
    as (_ & R & D & N).
  - vm_compute. reflexivity.
  - reflexivity.
  - split; [exact R|]. split; [exact D|].
    destruct (N [SinGen.Tick; SinGen.Loop None; SinGen.Loop (Some (Fin (- (3)))); SinGen.Tick])
      as (s2 & Rs & _ & Ds).
    + intros x [E | [E | [E | [E | []]]]]; try discriminate.
      injection E as <-. reflexivity.
    + exists s2. split; [exact Rs | exact Ds].
Defined.

(** C8 as stated fails: after a stop, a second command of frequency 0 is
    no positive frequency, and yet the output is written once more. *)
Lemma stop_writes_rest_code_counterexample :
  SinGen.reconfigure 256 (SinGen.set_targetFrequency (Fin 0) playing) = Ok stopped /\
  SinGen.updatePeriodMicros stopped = 0 /\
  no_positive [SinGen.Loop (Some (Fin 0))] /\
  SinGen.run 256 [SinGen.Loop (Some (Fin 0))] stopped = Ok (SinGen.dacWrite 128 stopped) /\
  SinGen.dac (SinGen.dacWrite 128 stopped) = SinGen.dac stopped ++ [128] /\
  SinGen.dac (SinGen.dacWrite 128 stopped) <> SinGen.dac stopped.
Proof.
  split; [vm_compute; reflexivity|]. split; [reflexivity|]. split.
  - intros x [E | []]. injection E as <-. reflexivity.
  - split; [vm_compute; reflexivity|]. split; [reflexivity|].
    vm_compute. discriminate.
Qed.



(** The sketch as it is starts at 100 Hz: [setup] fills the table and arms
    the timer with a period of 39 microseconds. *)
Example setup_at_100Hz :
  exists s',
    SinGen.setup 256 sin_ref (Some (SinGen.Timer false None)) (SinGen.initial 256) = Ok s' /\
    SinGen.timer s' = Some (SinGen.Timer true (Some (SinGen.Alarm 39 true 0))) /\
    SinGen.sampleAt (SinGen.sineLUT s') 0 = 128 /\
    SinGen.sampleAt (SinGen.sineLUT s') 64 = 167 /\
    SinGen.dac s' = [].
Proof.
  eexists. split; [vm_compute; reflexivity|].
  repeat split; reflexivity.
Qed.

(** ** Further properties of the sketches *)

Example sums_agree_with_SpecFloat : forallb agree_sum operands = true.
Proof. vm_compute. reflexivity. Qed.

(** *** The period as a function of the frequency *)

Lemma round_cases (f : format) (x : Q) :
  (round f x = Fin (roundQ f x) /\ (Qabs (roundQ f x) < pow2 (emax f))%Q) \/
  (round f x = Inf (Qneg (roundQ f x)) /\ (pow2 (emax f) <= Qabs (roundQ f x))%Q).
Proof.
  unfold round.
  destruct (Qle_bool (pow2 (emax f)) (Qabs (roundQ f x))) eqn:E.
  - right. split; [reflexivity|]. apply Qle_bool_iff. exact E.
  - left. split; [reflexivity|].
    apply Qnot_le_lt. intros H. apply Qle_bool_iff in H. congruence.
Qed.

Lemma round_pos_cases (f : format) (x : Q) :
  (0 <= x)%Q ->
  (round f x = Fin (roundQ f x) /\ (roundQ f x < pow2 (emax f))%Q) \/
  (round f x = Inf false /\ (pow2 (emax f) <= roundQ f x)%Q).
Proof.
  intros H. pose proof (roundQ_nonneg f x H) as N.
  destruct (round_cases f x) as [[E B] | [E B]]; rewrite Qabs_pos in B by exact N.
  - left. split; assumption.
  - right. split; [|exact B]. rewrite E. unfold Qneg.
    apply Qle_bool_iff in N. rewrite N. reflexivity.
Qed.

Lemma calculateUpdatePeriod_quotient (size : Z) (freq : Q) :
  0 < size -> (0 < freq)%Q ->
  SinGen.calculateUpdatePeriod size (Fin freq) =
    quotient_period (fmul binary32 (Fin freq) (of_Z binary32 size)).
Proof. intros Hs Hf. apply calculateUpdatePeriod_pos; assumption. Qed.

Lemma quotient_period_inf : quotient_period (Inf false) = Ok 1.
Proof. reflexivity. Qed.

Lemma quotient_period_ge1 (x : fp) (p : Z) : quotient_period x = Ok p -> 1 <= p.
Proof.
  unfold quotient_period.
  destruct (to_uint64 (fdiv binary64 (Fin 1000000) x)) as [t|]; simpl; [|discriminate].
  destruct (t >? 0) eqn:G; intros H; injection H as <-; [|lia].
  rewrite Z.gtb_ltb in G. apply Z.ltb_lt in G. lia.
Qed.

(** The cast of a quotient that is not negative, spelled out. *)
Lemma to_uint64_floor (q : Q) :
  (0 <= q)%Q ->
  to_uint64 (Fin q) = if Qfloor q <? 2 ^ 64 then Some (Qfloor q) else None.
Proof.
  intros H0. unfold to_uint64, Qtrunc.
  assert (F : 0 <= Qfloor q) by (rewrite <- (Qfloor_Z 0); apply Qfloor_resp_le, H0).
  apply Qle_bool_iff in H0. rewrite H0.
  assert (A : (0 <=? Qfloor q) = true) by (apply Z.leb_le; exact F).
  rewrite A. reflexivity.
Qed.

Lemma quotient_period_fin (x : Q) :
  (0 < x)%Q ->
  quotient_period (Fin x) =
    match round binary64 (1000000 / x) with
    | Fin r =>
        if Qfloor r <? 2 ^ 64
        then Ok (if Qfloor r >? 0 then Qfloor r else 1)
        else Undefined
    | _ => Undefined
    end.
Proof.
  intros Hx. unfold quotient_period, fdiv.
  destruct (Qeq_bool x 0) eqn:E; [apply Qeq_bool_iff in E; lra|].
  assert (Q0 : (0 <= 1000000 / x)%Q) by (apply Qle_shift_div_l; lra).
  destruct (round_pos_cases binary64 (1000000 / x) Q0) as [[R _] | [R _]]; rewrite R.
  - rewrite to_uint64_floor by (apply roundQ_nonneg; exact Q0).
    destruct (Qfloor (roundQ binary64 (1000000 / x)) <? 2 ^ 64); reflexivity.
  - reflexivity.
Qed.

(** A larger product gives a period that is defined as well and not longer. *)
Lemma quotient_period_mono (x1 x2 : Q) (p1 : Z) :
  (0 <= x1)%Q -> (x1 <= x2)%Q ->
  quotient_period (Fin x1) = Ok p1 ->
  exists p2, quotient_period (Fin x2) = Ok p2 /\ 1 <= p2 <= p1.
Proof.
  intros H0 H12 H1.
  assert (P1 : (0 < x1)%Q).
  { apply Qle_lteq in H0. destruct H0 as [L | E]; [exact L | exfalso].
    unfold quotient_period, fdiv in H1.
    assert (Z0 : Qeq_bool x1 0 = true) by (apply Qeq_bool_iff; symmetry; exact E).
    rewrite Z0 in H1. discriminate H1. }
  assert (P2 : (0 < x2)%Q) by lra.
  rewrite (quotient_period_fin x1 P1) in H1.
  rewrite (quotient_period_fin x2 P2).
  assert (Q1 : (0 <= 1000000 / x1)%Q) by (apply Qle_shift_div_l; lra).
  assert (Q2 : (0 <= 1000000 / x2)%Q) by (apply Qle_shift_div_l; lra).
  assert (Q21 : (1000000 / x2 <= 1000000 / x1)%Q).
  { apply Qdiv_le_cross; try assumption.
    apply Qmult_le_l; [reflexivity | exact H12]. }
  pose proof (roundQ_mono binary64 prec64_pos _ _ Q21) as M.
  pose proof (roundQ_nonneg binary64 _ Q2) as N2.
  destruct (round_pos_cases binary64 (1000000 / x1) Q1) as [[R1 B1] | [R1 _]];
    rewrite R1 in H1; [|discriminate].
  rewrite (round_fin binary64 (1000000 / x2))
    by (apply Qabs_of_nonneg_lt; [exact N2 | lra]).
  set (r1 := roundQ binary64 (1000000 / x1)) in *.
  set (r2 := roundQ binary64 (1000000 / x2)) in *.
  pose proof (Qfloor_resp_le _ _ M) as F.
  assert (F0 : 0 <= Qfloor r2) by (rewrite <- (Qfloor_Z 0); apply Qfloor_resp_le, N2).
  destruct (Qfloor r1 <? 2 ^ 64) eqn:L1; [|discriminate].
  apply Z.ltb_lt in L1. injection H1 as <-.
  assert (L2 : (Qfloor r2 <? 2 ^ 64) = true) by (apply Z.ltb_lt; lia).
  rewrite L2. eexists. split; [reflexivity|].
  destruct (Qfloor r2 >? 0) eqn:G2; destruct (Qfloor r1 >? 0) eqn:G1;
    rewrite ?Z.gtb_ltb in *; rewrite ?Z.ltb_lt, ?Z.ltb_ge in *; lia.
Qed.

Lemma quotient_period_bounded (x : Q) :
  (1 <= x)%Q ->
  exists p, quotient_period (Fin x) = Ok p /\ 1 <= p <= 1000000.
Proof.
  intros Hx. rewrite (quotient_period_fin x) by lra.
  assert (Q0 : (0 <= 1000000 / x)%Q) by (apply Qle_shift_div_l; lra).
  assert (Q1 : (1000000 / x <= 1000000)%Q) by (apply Qle_shift_div_r; lra).
  destruct (round_bounded binary64 prec64_pos (1000000 / x) 1000000) as [R [_ B]].
  - apply (representable_Z binary64 1000000); [vm_compute; discriminate | reflexivity].
  - apply pow2_1024_large. lra.
  - split; lra.
  - rewrite R. pose proof (roundQ_nonneg binary64 _ Q0) as N.
    set (r := roundQ binary64 (1000000 / x)) in *.
    assert (F0 : 0 <= Qfloor r) by (rewrite <- (Qfloor_Z 0); apply Qfloor_resp_le, N).
    assert (F1 : Qfloor r <= 1000000)
      by (rewrite <- (Qfloor_Z 1000000); apply Qfloor_resp_le, B).
    assert (L : (Qfloor r <? 2 ^ 64) = true) by (apply Z.ltb_lt; lia).
    rewrite L. eexists. split; [reflexivity|].
    destruct (Qfloor r >? 0) eqn:G; rewrite ?Z.gtb_ltb in G;
      rewrite ?Z.ltb_lt, ?Z.ltb_ge in G; lia.
Qed.

(** X1. The period is 0 exactly for a frequency that is not positive (or a
    table without samples): a positive frequency is never turned into a
    stop, however small its quotient. *)
Theorem period_zero_iff_stop (size : Z) (freq : fp) :
  SinGen.calculateUpdatePeriod size freq = Ok 0 <->
  fle freq (Fin 0) = true \/ size <= 0.
Proof.
  unfold SinGen.calculateUpdatePeriod. split.
  - destruct (fle freq (Fin 0)) eqn:F; [left; reflexivity|].
    destruct (size <=? 0) eqn:L; [right; apply Z.leb_le; exact L|].
    simpl orb. intros H. exfalso.
    change (quotient_period (fmul binary32 freq (of_Z binary32 size)) = Ok 0) in H.
    apply quotient_period_ge1 in H. lia.
  - intros [F | L].
    + rewrite F. reflexivity.
    + apply Z.leb_le in L. rewrite L, orb_true_r. reflexivity.
Qed.

(** X2. Raising the frequency never lengthens the period: if the period
    of a positive frequency is defined, so is the period of every higher
    one, and it is at least 1 and at most the former. *)
Theorem period_antitone (size : Z) (f1 f2 : Q) (p1 : Z) :
  0 < size -> (0 < f1)%Q -> (f1 <= f2)%Q ->
  SinGen.calculateUpdatePeriod size (Fin f1) = Ok p1 ->
  exists p2,
    SinGen.calculateUpdatePeriod size (Fin f2) = Ok p2 /\ 1 <= p2 <= p1.
Proof.
  intros Hs H1 H12 Hp.
  assert (H2 : (0 < f2)%Q) by lra.
  rewrite (calculateUpdatePeriod_quotient size f1 Hs H1) in Hp.
  rewrite (calculateUpdatePeriod_quotient size f2 Hs H2).
  pose proof (quotient_period_ge1 _ _ Hp) as G1.
  destruct (size_as_float size Hs) as [I | (s & Es & Bs)].
  - rewrite I in *. rewrite (fmul_pos_inf binary32 f2 H2).
    rewrite (fmul_pos_inf binary32 f1 H1) in Hp.
    rewrite quotient_period_inf in *. injection Hp as <-.
    exists 1. split; [reflexivity | lia].
  - rewrite Es in *. unfold fmul in *.
    rewrite pow2_m24 in Bs.
    assert (S1 : (1 <= inject_Z size)%Q) by (rewrite <- (Zle_Qle 1); lia).
    assert (Sp : (0 < s)%Q).
    { apply Qlt_le_trans with (inject_Z size * (1 - (1 # 16777216)))%Q; [|exact Bs].
      setoid_replace (inject_Z size * (1 - (1 # 16777216)))%Q
        with (inject_Z size * (16777215 # 16777216))%Q by ring.
      lra. }
    assert (M1 : (0 <= f1 * s)%Q) by (apply Qmult_le_0_compat; lra).
    assert (M2 : (0 <= f2 * s)%Q) by (apply Qmult_le_0_compat; lra).
    assert (M12 : (f1 * s <= f2 * s)%Q) by (apply Qmult_le_compat_r; lra).
    pose proof (roundQ_mono binary32 prec32_pos _ _ M12) as M.
    pose proof (roundQ_nonneg binary32 _ M1) as N1.
    destruct (round_pos_cases binary32 (f2 * s) M2) as [[R2 B2] | [R2 _]]; rewrite R2.
    + destruct (round_pos_cases binary32 (f1 * s) M1) as [[R1 _] | [_ B1]]; [|lra].
      rewrite R1 in Hp.
      apply (quotient_period_mono _ _ p1 N1 M Hp).
    + rewrite quotient_period_inf. exists 1. split; [reflexivity | lia].
Qed.

Lemma period_antitone_witness :
  exists p2, SinGen.calculateUpdatePeriod 256 (Fin 440) = Ok p2 /\ 1 <= p2 <= 39.
Proof.
  apply (period_antitone 256 100 440 39).
  - reflexivity.
  - reflexivity.
  - discriminate.
  - vm_compute. reflexivity.
Defined.

(** X3. From 1 Hz upwards the period is always defined and lies between 1
    and 1_000_000 microseconds, whatever the table size. *)
Theorem period_defined_from_1Hz (size : Z) (freq : Q) :
  0 < size -> (1 <= freq)%Q ->
  exists p, SinGen.calculateUpdatePeriod size (Fin freq) = Ok p /\ 1 <= p <= 1000000.
Proof.
  intros Hs Hf.
  rewrite (calculateUpdatePeriod_quotient size freq Hs) by lra.
  assert (S1 : (1 <= inject_Z size)%Q) by (rewrite <- (Zle_Qle 1); lia).
  unfold of_Z.
  destruct (round_pos_cases binary32 (inject_Z size)) as [[R _] | [R _]]; [lra | |];
    rewrite R.
  - assert (N1 : (1 <= roundQ binary32 (inject_Z size))%Q).
    { apply (roundQ_ge binary32 prec32_pos); [|exact S1].
      exists 1, 0. repeat split; try reflexivity. discriminate. }
    set (s := roundQ binary32 (inject_Z size)) in *.
    assert (P1 : (1 <= freq * s)%Q).
    { apply Qle_trans with (1 * s)%Q; [lra | apply Qmult_le_compat_r; lra]. }
    unfold fmul.
    destruct (round_pos_cases binary32 (freq * s)) as [[R' _] | [R' _]]; [lra | |];
      rewrite R'.
    + apply quotient_period_bounded.
      apply (roundQ_ge binary32 prec32_pos); [|exact P1].
      exists 1, 0. repeat split; try reflexivity. discriminate.
    + rewrite quotient_period_inf. exists 1. split; [reflexivity | lia].
  - rewrite (fmul_pos_inf binary32 freq) by lra.
    rewrite quotient_period_inf. exists 1. split; [reflexivity | lia].
Qed.

Lemma period_defined_from_1Hz_witness :
  exists p, SinGen.calculateUpdatePeriod 256 (Fin (5 # 2)) = Ok p /\ 1 <= p <= 1000000.
Proof.
  apply (period_defined_from_1Hz 256 (5 # 2)).
  - reflexivity.
  - discriminate.
Defined.

(** X4. With the 256 samples of the sketch the product of frequency and
    size is exact for every [float] frequency, so the period is the floor
    of the exact quotient [1_000_000 / (freq * 256)] whenever that
    quotient is at least 1 and below [2^29]. *)
Theorem period_256_is_floor (freq : Q) :
  representable binary32 freq -> (0 < freq)%Q ->
  (1 <= 1000000 / (freq * inject_Z 256) < 536870912)%Q ->
  SinGen.calculateUpdatePeriod 256 (Fin freq) =
    Ok (Qfloor (1000000 / (freq * inject_Z 256))).
Proof. intros Hr Hf Hq. apply calculateUpdatePeriod_floor_256; assumption. Qed.

Lemma period_256_is_floor_witness :
  SinGen.calculateUpdatePeriod 256 (Fin (13421773 # 134217728)) = Ok 39062.
Proof.
  apply (period_256_is_floor (13421773 # 134217728)).
  - exists 13421773, (-27). repeat split; try reflexivity. discriminate.
  - reflexivity.
  - split; [discriminate | reflexivity].
Defined.

(** *** Playback along runs *)

Section Runs.

Variable LUT_SIZE : Z.

Lemma onTimer_frame (s : SinGen.state) :
  SinGen.timer (SinGen.onTimer LUT_SIZE s) = SinGen.timer s /\
  SinGen.updatePeriodMicros (SinGen.onTimer LUT_SIZE s) = SinGen.updatePeriodMicros s /\
  SinGen.targetFrequency (SinGen.onTimer LUT_SIZE s) = SinGen.targetFrequency s /\
  SinGen.updateFrequency (SinGen.onTimer LUT_SIZE s) = SinGen.updateFrequency s.
Proof.
  unfold SinGen.onTimer.
  cbn [SinGen.lutIndex SinGen.set_lutIndex SinGen.dacWrite].
  destruct (SinGen.lutIndex s + 1 >=? LUT_SIZE); cbn; auto.
Qed.

Lemma tick_frame (s : SinGen.state) :
  SinGen.timer (SinGen.tick LUT_SIZE s) = SinGen.timer s /\
  SinGen.updatePeriodMicros (SinGen.tick LUT_SIZE s) = SinGen.updatePeriodMicros s /\
  SinGen.targetFrequency (SinGen.tick LUT_SIZE s) = SinGen.targetFrequency s /\
  SinGen.updateFrequency (SinGen.tick LUT_SIZE s) = SinGen.updateFrequency s.
Proof.
  unfold SinGen.tick. destruct (SinGen.running s); [apply onTimer_frame | auto].
Qed.

Lemma running_timer (s s' : SinGen.state) :
  SinGen.timer s' = SinGen.timer s -> SinGen.running s' = SinGen.running s.
Proof. intros H. unfold SinGen.running. rewrite H. reflexivity. Qed.

Lemma loop_after_input (input : option fp) (s : SinGen.state) :
  SinGen.loop LUT_SIZE input s =
  if SinGen.updateFrequency (after_input input s)
  then SinGen.reconfigure LUT_SIZE (after_input input s)
  else Ok (after_input input s).
Proof. reflexivity. Qed.

Lemma after_input_frame (input : option fp) (s : SinGen.state) :
  SinGen.timer (after_input input s) = SinGen.timer s /\
  SinGen.updatePeriodMicros (after_input input s) = SinGen.updatePeriodMicros s /\
  SinGen.dac (after_input input s) = SinGen.dac s.
Proof.
  unfold after_input. destruct input as [x|]; [destruct (fge x (Fin 0))|]; cbn; auto.
Qed.

Lemma after_input_target (input : option fp) (s : SinGen.state) :
  fge (SinGen.targetFrequency s) (Fin 0) = true ->
  fge (SinGen.targetFrequency (after_input input s)) (Fin 0) = true.
Proof.
  intros H. unfold after_input.
  destruct input as [x|]; [destruct (fge x (Fin 0)) eqn:G|]; cbn; auto.
Qed.

Lemma reconfigure_target (s s' : SinGen.state) :
  SinGen.reconfigure LUT_SIZE s = Ok s' ->
  SinGen.targetFrequency s' = SinGen.targetFrequency s /\
  SinGen.updateFrequency s' = false.
Proof.
  rewrite reconfigure_cases.
  destruct (SinGen.calculateUpdatePeriod LUT_SIZE (SinGen.targetFrequency s)) as [p | |];
    cbn [bind]; try discriminate.
  intros H. injection H as <-. destruct (p >? 0); cbn; auto.
Qed.

Lemma loop_valid (input : option fp) (s s' : SinGen.state) :
  fge (SinGen.targetFrequency s) (Fin 0) = true ->
  SinGen.loop LUT_SIZE input s = Ok s' ->
  fge (SinGen.targetFrequency s') (Fin 0) = true /\ SinGen.updateFrequency s' = false.
Proof.
  intros V. rewrite loop_after_input.
  pose proof (after_input_target input s V) as V1.
  destruct (SinGen.updateFrequency (after_input input s)) eqn:U; intros H.
  - apply reconfigure_target in H. destruct H as [T F]. rewrite T. auto.
  - injection H as <-. auto.
Qed.

(** What a pass of [loop] writes: nothing, or the rest code once. *)
Lemma loop_writes (input : option fp) (s s' : SinGen.state) :
  SinGen.loop LUT_SIZE input s = Ok s' ->
  SinGen.dac s' = SinGen.dac s \/ SinGen.dac s' = SinGen.dac s ++ [128].
Proof.
  rewrite loop_after_input.
  destruct (after_input_frame input s) as (_ & _ & D).
  destruct (SinGen.updateFrequency (after_input input s)); intros H.
  - rewrite reconfigure_cases in H.
    destruct (SinGen.calculateUpdatePeriod LUT_SIZE
                (SinGen.targetFrequency (after_input input s))) as [p | |];
      cbn [bind] in H; try discriminate.
    injection H as <-. destruct (p >? 0); cbn; rewrite D; auto.
  - injection H as <-. left. exact D.
Qed.

Lemma reconfigure_armed (s s' : SinGen.state) :
  SinGen.reconfigure LUT_SIZE s = Ok s' -> armed_ok s'.
Proof.
  rewrite reconfigure_cases.
  destruct (SinGen.calculateUpdatePeriod LUT_SIZE (SinGen.targetFrequency s)) as [p | |];
    cbn [bind]; try discriminate.
  intros H. injection H as <-. intros R.
  destruct (p >? 0) eqn:G.
  - rewrite Z.gtb_ltb in G. apply Z.ltb_lt in G.
    unfold SinGen.running in R. cbn in R. cbn.
    destruct (SinGen.timer s) as [t|]; cbn in *; [|discriminate].
    eexists. split; [reflexivity|]. split; [reflexivity | lia].
  - exfalso. cbn [SinGen.set_updateFrequency] in R.
    assert (D : SinGen.running
                  (SinGen.set_updateFrequency false
                     (SinGen.dacWrite 128
                        (SinGen.set_updatePeriodMicros p (SinGen.timerDetachInterrupt s))))
                = false) by apply running_detached.
    congruence.
Qed.

Lemma armed_ok_same (s s' : SinGen.state) :
  SinGen.timer s' = SinGen.timer s ->
  SinGen.updatePeriodMicros s' = SinGen.updatePeriodMicros s ->
  armed_ok s -> armed_ok s'.
Proof.
  intros T P A R. unfold armed_ok in A.
  rewrite (running_timer s s' T) in R. rewrite T, P. apply A, R.
Qed.

Lemma step_armed (e : SinGen.event) (s s' : SinGen.state) :
  armed_ok s -> SinGen.step LUT_SIZE e s = Ok s' -> armed_ok s'.
Proof.
  intros A. destruct e as [|input]; cbn [SinGen.step].
  - intros H. injection H as <-.
    destruct (tick_frame s) as (T & P & _). apply (armed_ok_same s); assumption.
  - rewrite loop_after_input.
    destruct (after_input_frame input s) as (T & P & _).
    destruct (SinGen.updateFrequency (after_input input s)); intros H.
    + apply (reconfigure_armed _ _ H).
    + injection H as <-. apply (armed_ok_same s); assumption.
Qed.

Lemma run_armed (es : list SinGen.event) :
  forall s s', armed_ok s -> SinGen.run LUT_SIZE es s = Ok s' -> armed_ok s'.
Proof.
  induction es as [|e es IH]; intros s s' A H; cbn [SinGen.run] in H.
  - injection H as <-. exact A.
  - destruct (SinGen.step LUT_SIZE e s) as [s1 | |] eqn:S; cbn [bind] in H;
      try discriminate.
    apply (IH s1 s' (step_armed e s s1 A S) H).
Qed.

Lemma run_valid (es : list SinGen.event) :
  forall s s',
    fge (SinGen.targetFrequency s) (Fin 0) = true -> SinGen.updateFrequency s = false ->
    SinGen.run LUT_SIZE es s = Ok s' ->
    fge (SinGen.targetFrequency s') (Fin 0) = true /\ SinGen.updateFrequency s' = false.
Proof.
  induction es as [|e es IH]; intros s s' V U H; cbn [SinGen.run] in H.
  - injection H as <-. auto.
  - destruct (SinGen.step LUT_SIZE e s) as [s1 | |] eqn:S; cbn [bind] in H;
      try discriminate.
    apply (IH s1 s'); [| |exact H].
    + destruct e as [|input]; cbn [SinGen.step] in S.
      * injection S as <-. destruct (tick_frame s) as (_ & _ & T & _). rewrite T. exact V.
      * apply (loop_valid input s s1 V S).
    + destruct e as [|input]; cbn [SinGen.step] in S.
      * injection S as <-. destruct (tick_frame s) as (_ & _ & _ & F). rewrite F. exact U.
      * apply (loop_valid input s s1 V S).
Qed.

(** [k] ticks of a running generator. *)
Lemma ticks_play (k : nat) (s : SinGen.state) :
  wf LUT_SIZE s -> SinGen.running s = true ->
  let s' := Nat.iter k (SinGen.tick LUT_SIZE) s in
  wf LUT_SIZE s' /\ SinGen.running s' = true /\
  SinGen.sineLUT s' = SinGen.sineLUT s /\
  SinGen.lutIndex s' = (SinGen.lutIndex s + Z.of_nat k) mod LUT_SIZE /\
  SinGen.dac s' =
    SinGen.dac s ++ upcoming LUT_SIZE (SinGen.sineLUT s) (SinGen.lutIndex s) k.
Proof.
  intros W R. cbn zeta. induction k as [|k IH].
  - cbn [Nat.iter]. split; [exact W|]. split; [exact R|]. split; [reflexivity|].
    destruct W as [Hi _]. split.
    + rewrite Z.add_0_r, Z.mod_small by lia. reflexivity.
    + unfold upcoming. cbn. rewrite app_nil_r. reflexivity.
  - rewrite !Nat.iter_succ.
    set (sk := Nat.iter k (SinGen.tick LUT_SIZE) s) in *.
    destruct IH as (Wk & Rk & Tk & Ik & Dk).
    replace (SinGen.tick LUT_SIZE sk) with (SinGen.onTimer LUT_SIZE sk)
      by (unfold SinGen.tick; rewrite Rk; reflexivity).
    destruct (onTimer_spec LUT_SIZE sk Wk) as (D & I & T).
    destruct (onTimer_frame sk) as (Tm & _).
    assert (Hs : 0 < LUT_SIZE) by (destruct W; lia).
    split; [apply onTimer_wf; exact Wk|].
    split; [rewrite (running_timer sk _ Tm); exact Rk|].
    split; [rewrite T; exact Tk|]. split.
    + rewrite I, Ik, Z.add_mod_idemp_l by lia. f_equal. lia.
    + rewrite D, Dk, Tk, Ik. unfold upcoming.
      rewrite seq_S, map_app, app_assoc. reflexivity.
Qed.

End Runs.

(** X5. The serial commands never leave the generator with a target
    frequency that is negative or not a number, nor with an update still
    pending: a line whose value is not at least 0 is dropped, and an
    accepted one is applied in the pass of [loop] that reads it. *)
Theorem commands_keep_target_valid
    (size : Z) (es : list SinGen.event) (s s' : SinGen.state) :
  fge (SinGen.targetFrequency s) (Fin 0) = true ->
  SinGen.updateFrequency s = false ->
  SinGen.run size es s = Ok s' ->
  fge (SinGen.targetFrequency s') (Fin 0) = true /\
  SinGen.updateFrequency s' = false.
Proof. intros V U H. apply (run_valid size es s s' V U H). Qed.

Lemma commands_keep_target_valid_witness :
  exists s',
    SinGen.run 256
      [SinGen.Loop (Some (Fin (- (3)))); SinGen.Loop (Some NaN);
       SinGen.Loop (Some (Fin 50)); SinGen.Tick; SinGen.Loop (Some (Inf true))]
      playing = Ok s' /\
    SinGen.targetFrequency s' = Fin 50 /\
    fge (SinGen.targetFrequency s') (Fin 0) = true /\
    SinGen.updateFrequency s' = false.
Proof.
  eexists. split; [vm_compute; reflexivity|]. split; [reflexivity|].
  apply (commands_keep_target_valid 256
           [SinGen.Loop (Some (Fin (- (3)))); SinGen.Loop (Some NaN);
            SinGen.Loop (Some (Fin 50)); SinGen.Tick; SinGen.Loop (Some (Inf true))]
           playing).
  - reflexivity.
  - reflexivity.
  - vm_compute. reflexivity.
Defined.

Section Startup.

Variable LUT_SIZE : Z.
Variable c_sin : fp -> fp.

(** [setup], once the table is filled. *)
Lemma setup_cases (tb : option SinGen.hw_timer_t) (s : SinGen.state) :
  SinGen.setup LUT_SIZE c_sin tb s =
  (s1 <- SinGen.generateSineLUT LUT_SIZE c_sin s ;;
   match tb with
   | None => Hang
   | Some t =>
       p <- SinGen.calculateUpdatePeriod LUT_SIZE (SinGen.targetFrequency s1) ;;
       Ok (if p >? 0
           then SinGen.timerAlarm p true 0
                  (SinGen.set_updatePeriodMicros p
                     (SinGen.set_timer (Some (SinGen.Timer true (SinGen.alarm t))) s1))
           else SinGen.timerDetachInterrupt
                  (SinGen.set_updatePeriodMicros p
                     (SinGen.set_timer (Some (SinGen.Timer true (SinGen.alarm t))) s1)))
   end).
Proof.
  unfold SinGen.setup.
  destruct (SinGen.generateSineLUT LUT_SIZE c_sin s) as [s1 | |]; cbn [bind];
    try reflexivity.
  destruct tb as [t|]; cbn [SinGen.timer SinGen.set_timer]; [|reflexivity].
  cbn [SinGen.targetFrequency SinGen.timerAttachInterrupt SinGen.on_timer
       SinGen.set_timer SinGen.timer option_map].
  destruct (SinGen.calculateUpdatePeriod LUT_SIZE (SinGen.targetFrequency s1)) as [p | |];
    cbn [bind]; try reflexivity.
  cbn [SinGen.updatePeriodMicros SinGen.set_updatePeriodMicros].
  destruct (p >? 0); reflexivity.
Qed.

Lemma setup_armed (tb : option SinGen.hw_timer_t) (s s' : SinGen.state) :
  SinGen.setup LUT_SIZE c_sin tb s = Ok s' -> armed_ok s'.
Proof.
  rewrite setup_cases.
  destruct (SinGen.generateSineLUT LUT_SIZE c_sin s) as [s1 | |]; cbn [bind];
    try discriminate.
  destruct tb as [t|]; [|discriminate].
  destruct (SinGen.calculateUpdatePeriod LUT_SIZE (SinGen.targetFrequency s1)) as [p | |];
    cbn [bind]; try discriminate.
  intros H. injection H as <-. intros R.
  destruct (p >? 0) eqn:G.
  - rewrite Z.gtb_ltb in G. apply Z.ltb_lt in G. cbn.
    eexists. split; [reflexivity|]. split; [reflexivity | lia].
  - exfalso. rewrite running_detached in R. discriminate R.
Qed.

End Startup.

(** X6. From [setup] on, along every sequence of ticks and passes of
    [loop]: whenever the callback can fire, the alarm is programmed with
    the current period [updatePeriodMicros], which is at least 1
    microsecond, with auto-reload and a count starting at 0.  The timer is
    never left armed with a period of 0. *)
Theorem alarm_matches_period
    (size : Z) (c_sin : fp -> fp) (tb : option SinGen.hw_timer_t)
    (s0 s : SinGen.state) (es : list SinGen.event) (s' : SinGen.state) :
  SinGen.setup size c_sin tb s0 = Ok s ->
  SinGen.run size es s = Ok s' ->
  armed_ok s'.
Proof.
  intros S R. apply (run_armed size es s s'); [|exact R].
  apply (setup_armed size c_sin tb s0 s S).
Qed.

Lemma alarm_matches_period_witness :
  exists s s',
    SinGen.setup 4 sin_ref (Some (SinGen.Timer false None)) (SinGen.initial 4) = Ok s /\
    SinGen.run 4 [SinGen.Tick; SinGen.Loop (Some (Fin 440)); SinGen.Tick] s = Ok s' /\
    SinGen.running s' = true /\ SinGen.updatePeriodMicros s' = 568 /\
    armed_ok s'.
Proof.
  eexists. eexists. split; [vm_compute; reflexivity|].
  split; [vm_compute; reflexivity|]. split; [reflexivity|]. split; [reflexivity|].
  eapply (alarm_matches_period 4 sin_ref (Some (SinGen.Timer false None))
            (SinGen.initial 4) _
            [SinGen.Tick; SinGen.Loop (Some (Fin 440)); SinGen.Tick]).
  - vm_compute. reflexivity.
  - vm_compute. reflexivity.
Defined.

(** X7. While the generator runs, [k] ticks emit the [k] table entries
    that follow the cursor, in order and around the end of the table, and
    leave the cursor [k] places further on; after [LUT_SIZE] ticks one
    whole cycle has been emitted and the cursor is back where it was. *)
Theorem ticks_play_the_table (size : Z) (k : nat) (s : SinGen.state) :
  wf size s -> SinGen.running s = true ->
  SinGen.lutIndex (Nat.iter k (SinGen.tick size) s) =
    (SinGen.lutIndex s + Z.of_nat k) mod size /\
  SinGen.dac (Nat.iter k (SinGen.tick size) s) =
    SinGen.dac s ++ upcoming size (SinGen.sineLUT s) (SinGen.lutIndex s) k /\
  SinGen.lutIndex (Nat.iter (Z.to_nat size) (SinGen.tick size) s) = SinGen.lutIndex s.
Proof.
  intros W R.
  destruct (ticks_play size k s W R) as (_ & _ & _ & I & D).
  destruct (ticks_play size (Z.to_nat size) s W R) as (_ & _ & _ & I' & _).
  split; [exact I|]. split; [exact D|].
  destruct W as [Hi _].
  rewrite I', Z2Nat.id by lia.
  rewrite <- (Z.mul_1_l size) at 1. rewrite Z.mod_add by lia.
  apply Z.mod_small. exact Hi.
Qed.

Lemma ticks_play_the_table_witness :
  SinGen.dac (Nat.iter 6 (SinGen.tick 4) four_playing) = [128; 167; 128; 89; 128; 167] /\
  SinGen.lutIndex (Nat.iter 6 (SinGen.tick 4) four_playing) = 2 /\
  SinGen.lutIndex (Nat.iter 4 (SinGen.tick 4) four_playing) = 0.
Proof.
  assert (W : wf 4 four_playing).
  { split; [split; [discriminate | reflexivity]|].
    split; [reflexivity|]. repeat constructor; discriminate. }
  destruct (ticks_play_the_table 4 6 four_playing W) as (I & D & C).
  - reflexivity.
  - split; [exact D|]. split; [exact I | exact C].
Defined.

(** *** The table and what reaches the output *)

Section Envelope.

Variable LUT_SIZE : Z.
Variable c_sin : fp -> fp.
Hypothesis size_int : 0 < LUT_SIZE < 2 ^ 31.
Hypothesis sin_ok : sine_like c_sin.

(** Where the sum of offset and amplitude fits the code range, the clamp
    never acts and the entry stays within the amplitude of the offset. *)
Lemma entry_envelope (offset_dac amplitude_dac i : Z) :
  0 <= amplitude_dac <= 255 ->
  0 <= offset_dac - amplitude_dac -> offset_dac + amplitude_dac <= 255 ->
  0 <= i < 2 ^ 31 ->
  offset_dac - amplitude_dac
    <= entry LUT_SIZE c_sin offset_dac amplitude_dac i
    <= offset_dac + amplitude_dac.
Proof.
  intros Ha Lo Hi Hidx. unfold entry.
  destruct (lut_entry_ok LUT_SIZE c_sin size_int sin_ok offset_dac amplitude_dac i Ha Hidx)
    as (r & _ & Hr & E).
  rewrite E. unfold spec_clamp. lia.
Qed.

Lemma fill_envelope (offset_dac amplitude_dac : Z) (lut : list Z) :
  0 <= amplitude_dac <= 255 ->
  0 <= offset_dac - amplitude_dac -> offset_dac + amplitude_dac <= 255 ->
  length lut = Z.to_nat LUT_SIZE ->
  exists lut',
    SinGen.fill LUT_SIZE c_sin offset_dac amplitude_dac lut = Ok lut' /\
    length lut' = Z.to_nat LUT_SIZE /\
    within (offset_dac - amplitude_dac) (offset_dac + amplitude_dac) lut'.
Proof.
  intros Ha Lo Hi Hl.
  destruct (fill_ok LUT_SIZE c_sin size_int sin_ok offset_dac amplitude_dac lut Ha Hl)
    as (lut' & F & L & N).
  exists lut'. split; [exact F|]. split; [exact L|].
  apply (Forall_sampleAt LUT_SIZE size_int); [exact L|].
  intros i Hidx. rewrite (N i Hidx). apply entry_envelope; try assumption. lia.
Qed.

Lemma generateSineLUT_envelope (s : SinGen.state) :
  length (SinGen.sineLUT s) = Z.to_nat LUT_SIZE ->
  exists lut,
    SinGen.generateSineLUT LUT_SIZE c_sin s = Ok (SinGen.set_sineLUT lut s) /\
    length lut = Z.to_nat LUT_SIZE /\ within 89 167 lut.
Proof.
  intros Hl.
  destruct (generateSineLUT_ok LUT_SIZE c_sin size_int sin_ok s Hl) as (lut & G & L & N).
  exists lut. split; [exact G|]. split; [exact L|].
  apply (Forall_sampleAt LUT_SIZE size_int); [exact L|].
  intros i Hidx. rewrite (N i Hidx).
  apply (entry_envelope 128 39 i); lia.
Qed.

Lemma enveloped_wf (s : SinGen.state) : enveloped LUT_SIZE s -> wf LUT_SIZE s.
Proof.
  intros (I & L & T & _). split; [exact I|]. split; [exact L|].
  apply Forall_impl with (P := fun v => 89 <= v <= 167); [intros v Hv; lia | exact T].
Qed.

Lemma setup_enveloped (tb : option SinGen.hw_timer_t) (s s' : SinGen.state) :
  fresh LUT_SIZE s ->
  SinGen.setup LUT_SIZE c_sin tb s = Ok s' -> enveloped LUT_SIZE s'.
Proof.
  intros (I0 & Hl & D0). rewrite setup_cases.
  destruct (generateSineLUT_envelope s Hl) as (lut & G & L & T).
  rewrite G. cbn [bind].
  destruct tb as [t|]; [|intros H; discriminate H].
  cbn [SinGen.targetFrequency SinGen.set_sineLUT].
  destruct (SinGen.calculateUpdatePeriod LUT_SIZE (SinGen.targetFrequency s)) as [p | |];
    cbn [bind]; intros H; [|discriminate H | discriminate H].
  injection H as <-. clear G.
  assert (I : 0 <= SinGen.lutIndex s < LUT_SIZE) by (rewrite I0; lia).
  destruct (p >? 0);
    (split; [exact I|]; split; [exact L|]; split; [exact T|]);
    unfold within; cbn [SinGen.dac SinGen.timerAlarm SinGen.timerDetachInterrupt
                        SinGen.on_timer SinGen.set_timer SinGen.set_updatePeriodMicros
                        SinGen.set_sineLUT];
    rewrite D0; constructor.
Qed.

Lemma step_enveloped (e : SinGen.event) (s s' : SinGen.state) :
  enveloped LUT_SIZE s -> SinGen.step LUT_SIZE e s = Ok s' -> enveloped LUT_SIZE s'.
Proof.
  intros E. pose proof (enveloped_wf s E) as W.
  destruct E as (I & L & T & D).
  destruct e as [|input]; cbn [SinGen.step]; intros H.
  - injection H as <-. unfold SinGen.tick.
    destruct (SinGen.running s); [|exact (conj I (conj L (conj T D)))].
    destruct (onTimer_spec LUT_SIZE s W) as (Dn & In & Tn).
    pose proof (onTimer_wf LUT_SIZE s W) as [I' _].
    split; [exact I'|]. rewrite Tn. split; [exact L|]. split; [exact T|].
    rewrite Dn. apply Forall_app. split; [exact D|].
    constructor; [|constructor].
    unfold within in T. rewrite Forall_forall in T. apply T.
    unfold SinGen.sampleAt. apply nth_In. lia.
  - destruct (loop_frame LUT_SIZE input s s' H) as [Ie Te].
    rewrite <- Te in L, T. rewrite <- Ie in I.
    split; [exact I|]. split; [exact L|]. split; [exact T|].
    destruct (loop_writes LUT_SIZE input s s' H) as [Dn | Dn]; rewrite Dn; [exact D|].
    apply Forall_app. split; [exact D|]. constructor; [lia | constructor].
Qed.

Lemma run_enveloped (es : list SinGen.event) :
  forall s s', enveloped LUT_SIZE s -> SinGen.run LUT_SIZE es s = Ok s' -> enveloped LUT_SIZE s'.
Proof.
  induction es as [|e es IH]; intros s s' E H; cbn [SinGen.run] in H.
  - injection H as <-. exact E.
  - destruct (SinGen.step LUT_SIZE e s) as [s1 | |] eqn:S; cbn [bind] in H;
      try discriminate.
    apply (IH s1 s' (step_enveloped e s s1 E S) H).
Qed.

End Envelope.

(** X8. The loop of the table builder overwrites every entry: the table
    it returns does not depend on what the array held before, so building
    twice gives the table of building once. *)
Theorem table_overwritten
    (size : Z) (c_sin : fp -> fp) (offset amplitude : Z) (lut1 lut2 : list Z) :
  sine_like c_sin -> 0 < size < 2 ^ 31 -> 0 <= amplitude <= 255 ->
  length lut1 = Z.to_nat size -> length lut2 = Z.to_nat size ->
  exists lut',
    SinGen.fill size c_sin offset amplitude lut1 = Ok lut' /\
    SinGen.fill size c_sin offset amplitude lut2 = Ok lut' /\
    SinGen.fill size c_sin offset amplitude lut' = Ok lut'.
Proof.
  intros Hsin Hsize Ha L1 L2.
  destruct (fill_ok size c_sin Hsize Hsin offset amplitude lut1 Ha L1) as (t1 & F1 & T1 & N1).
  destruct (fill_ok size c_sin Hsize Hsin offset amplitude lut2 Ha L2) as (t2 & F2 & T2 & N2).
  destruct (fill_ok size c_sin Hsize Hsin offset amplitude t1 Ha T1) as (t3 & F3 & T3 & N3).
  assert (Same : forall a b : list Z,
             length a = Z.to_nat size -> length b = Z.to_nat size ->
             (forall i, 0 <= i < size ->
                SinGen.sampleAt b i = entry size c_sin offset amplitude i) ->
             (forall i, 0 <= i < size ->
                SinGen.sampleAt a i = entry size c_sin offset amplitude i) ->
             a = b).
  { intros a b La Lb Nb Na. apply (nth_ext a b 0 0); [congruence|].
    intros n Hn.
    pose proof (Na (Z.of_nat n)) as A. pose proof (Nb (Z.of_nat n)) as B.
    unfold SinGen.sampleAt in A, B. rewrite Nat2Z.id in A, B.
    rewrite A, B by lia. reflexivity. }
  exists t1. split; [exact F1|]. split.
  - rewrite F2. f_equal. apply Same; assumption.
  - rewrite F3. f_equal. apply Same; assumption.
Qed.

Lemma table_overwritten_witness :
  exists lut',
    SinGen.fill 8 sin_ref 128 39 (repeat 0 8%nat) = Ok lut' /\
    SinGen.fill 8 sin_ref 128 39 [1; 2; 3; 4; 5; 6; 7; 8] = Ok lut' /\
    SinGen.fill 8 sin_ref 128 39 lut' = Ok lut'.
Proof.
  apply (table_overwritten 8 sin_ref 128 39 (repeat 0 8%nat) [1; 2; 3; 4; 5; 6; 7; 8]).
  - exact sin_ref_sine_like.
  - split; reflexivity.
  - split; discriminate.
  - reflexivity.
  - reflexivity.
Defined.

(** X9. Where offset minus amplitude and offset plus amplitude both fit
    the code range, the clamp never acts: every entry of the table lies
    within the amplitude of the offset.  The table of the sketch, built
    from the codes 128 and 39, stays within 89 and 167. *)
Theorem table_within_envelope
    (size : Z) (c_sin : fp -> fp) (offset amplitude : Z) (s : SinGen.state) :
  sine_like c_sin -> 0 < size < 2 ^ 31 ->
  0 <= amplitude <= 255 -> 0 <= offset - amplitude -> offset + amplitude <= 255 ->
  length (SinGen.sineLUT s) = Z.to_nat size ->
  (exists lut',
     SinGen.fill size c_sin offset amplitude (SinGen.sineLUT s) = Ok lut' /\
     length lut' = Z.to_nat size /\
     within (offset - amplitude) (offset + amplitude) lut') /\
  (exists lut,
     SinGen.generateSineLUT size c_sin s = Ok (SinGen.set_sineLUT lut s) /\
     length lut = Z.to_nat size /\ within 89 167 lut).
Proof.
  intros Hsin Hsize Ha Lo Hi Hl. split.
  - apply fill_envelope; assumption.
  - apply generateSineLUT_envelope; assumption.
Qed.

Lemma table_within_envelope_witness :
  (exists lut',
     SinGen.fill 8 sin_ref 100 20 (repeat 0 8%nat) = Ok lut' /\
     length lut' = 8%nat /\ within 80 120 lut') /\
  (exists lut,
     SinGen.generateSineLUT 8 sin_ref (SinGen.initial 8) =
       Ok (SinGen.set_sineLUT lut (SinGen.initial 8)) /\
     length lut = 8%nat /\ within 89 167 lut).
Proof.
  apply (table_within_envelope 8 sin_ref 100 20 (SinGen.initial 8)).
  - exact sin_ref_sine_like.
  - split; reflexivity.
  - split; discriminate.
  - discriminate.
  - discriminate.
  - reflexivity.
Defined.

(** X10. Everything the generator ever writes to the DAC, from [setup]
    on and along every sequence of ticks and passes of [loop], is a code
    between 89 and 167: a table entry or the rest code 128. *)
Theorem output_within_envelope
    (size : Z) (c_sin : fp -> fp) (tb : option SinGen.hw_timer_t)
    (s0 s : SinGen.state) (es : list SinGen.event) (s' : SinGen.state) :
  sine_like c_sin -> 0 < size < 2 ^ 31 ->
  fresh size s0 ->
  SinGen.setup size c_sin tb s0 = Ok s ->
  SinGen.run size es s = Ok s' ->
  within 89 167 (SinGen.dac s') /\ 0 <= SinGen.lutIndex s' < size.
Proof.
  intros Hsin Hsize F S R.
  pose proof (setup_enveloped size c_sin Hsize Hsin tb s0 s F S) as E.
  pose proof (run_enveloped size Hsize es s s' E R) as (I & _ & _ & D).
  split; assumption.
Qed.

Lemma output_within_envelope_witness :
  exists s s',
    SinGen.setup 4 sin_ref (Some (SinGen.Timer false None)) (SinGen.initial 4) = Ok s /\
    SinGen.run 4
      [SinGen.Tick; SinGen.Tick; SinGen.Loop (Some (Fin 0)); SinGen.Tick;
       SinGen.Loop (Some (Fin 440)); SinGen.Tick; SinGen.Tick; SinGen.Tick] s = Ok s' /\
    SinGen.dac s' = [128; 167; 128; 128; 89; 128] /\
    within 89 167 (SinGen.dac s').
Proof.
  eexists. eexists. split; [vm_compute; reflexivity|].
  split; [vm_compute; reflexivity|]. split; [reflexivity|].
  eapply (output_within_envelope 4 sin_ref (Some (SinGen.Timer false None))
            (SinGen.initial 4) _
            [SinGen.Tick; SinGen.Tick; SinGen.Loop (Some (Fin 0)); SinGen.Tick;
             SinGen.Loop (Some (Fin 440)); SinGen.Tick; SinGen.Tick; SinGen.Tick]).
  - exact sin_ref_sine_like.
  - split; reflexivity.
  - repeat split.
  - vm_compute. reflexivity.
  - vm_compute. reflexivity.
Defined.

(** *** Starting and retuning *)

(** X11. When no timer can be allocated, [setup] fills the table and
    then never returns. *)
Theorem setup_without_timer_hangs
    (size : Z) (c_sin : fp -> fp) (s : SinGen.state) :
  sine_like c_sin -> 0 < size < 2 ^ 31 ->
  length (SinGen.sineLUT s) = Z.to_nat size ->
  SinGen.setup size c_sin None s = Hang.
Proof.
  intros Hsin Hsize Hl. rewrite setup_cases.
  destruct (generateSineLUT_ok size c_sin Hsize Hsin s Hl) as (lut & G & _).
  rewrite G. reflexivity.
Qed.

Lemma setup_without_timer_hangs_witness :
  SinGen.setup 8 sin_ref None (SinGen.initial 8) = Hang.
Proof.
  apply (setup_without_timer_hangs 8 sin_ref (SinGen.initial 8)).
  - exact sin_ref_sine_like.
  - split; reflexivity.
  - reflexivity.
Defined.

(** X12. Started with a frequency whose period [p] is positive, [setup]
    returns with the callback attached and the alarm programmed with
    [p], auto-reload on and the count at 0; it stores [p], writes nothing
    to the output and leaves the cursor where it was. *)
Theorem setup_arms_timer
    (size : Z) (c_sin : fp -> fp) (tb : SinGen.hw_timer_t) (s : SinGen.state) (p : Z) :
  sine_like c_sin -> 0 < size < 2 ^ 31 ->
  length (SinGen.sineLUT s) = Z.to_nat size ->
  SinGen.calculateUpdatePeriod size (SinGen.targetFrequency s) = Ok p -> 0 < p ->
  exists s',
    SinGen.setup size c_sin (Some tb) s = Ok s' /\
    SinGen.timer s' = Some (SinGen.Timer true (Some (SinGen.Alarm p true 0))) /\
    SinGen.running s' = true /\
    SinGen.updatePeriodMicros s' = p /\
    SinGen.dac s' = SinGen.dac s /\
    SinGen.lutIndex s' = SinGen.lutIndex s.
Proof.
  intros Hsin Hsize Hl Hp Pp. rewrite setup_cases.
  destruct (generateSineLUT_ok size c_sin Hsize Hsin s Hl) as (lut & G & _).
  rewrite G. cbn [bind SinGen.targetFrequency SinGen.set_sineLUT].
  rewrite Hp. cbn [bind].
  assert (P : (p >? 0) = true) by (rewrite Z.gtb_ltb; apply Z.ltb_lt; exact Pp).
  rewrite P. eexists. split; [reflexivity|]. repeat split.
Qed.

Lemma setup_arms_timer_witness :
  exists s',
    SinGen.setup 8 sin_ref (Some (SinGen.Timer false None)) (SinGen.initial 8) = Ok s' /\
    SinGen.timer s' = Some (SinGen.Timer true (Some (SinGen.Alarm 1250 true 0))) /\
    SinGen.running s' = true /\
    SinGen.updatePeriodMicros s' = 1250 /\
    SinGen.dac s' = [] /\
    SinGen.lutIndex s' = 0.
Proof.
  apply (setup_arms_timer 8 sin_ref (SinGen.Timer false None) (SinGen.initial 8) 1250).
  - exact sin_ref_sine_like.
  - split; reflexivity.
  - reflexivity.
  - vm_compute. reflexivity.
  - reflexivity.
Defined.

(** X13. A line with a frequency of at least 0 whose period [p] is
    positive retunes the generator within the pass of [loop] that reads
    it: the frequency and [p] are stored, the alarm is programmed with
    [p] and the callback attached again, the update flag is cleared, and
    neither the output nor the cursor is touched. *)
Theorem positive_command_retunes
    (size : Z) (x : fp) (s : SinGen.state) (p : Z) :
  fge x (Fin 0) = true ->
  SinGen.calculateUpdatePeriod size x = Ok p -> 0 < p ->
  exists s',
    SinGen.loop size (Some x) s = Ok s' /\
    SinGen.targetFrequency s' = x /\
    SinGen.updatePeriodMicros s' = p /\
    SinGen.timer s' =
      option_map (fun _ => SinGen.Timer true (Some (SinGen.Alarm p true 0)))
        (SinGen.timer s) /\
    SinGen.updateFrequency s' = false /\
    SinGen.dac s' = SinGen.dac s /\
    SinGen.lutIndex s' = SinGen.lutIndex s.
Proof.
  intros G Hp Pp. rewrite loop_after_input. unfold after_input. rewrite G.
  cbn [SinGen.updateFrequency SinGen.set_updateFrequency].
  rewrite reconfigure_cases.
  cbn [SinGen.targetFrequency SinGen.set_updateFrequency SinGen.set_targetFrequency].
  rewrite Hp. cbn [bind].
  assert (P : (p >? 0) = true) by (rewrite Z.gtb_ltb; apply Z.ltb_lt; exact Pp).
  rewrite P. eexists. split; [reflexivity|].
  split; [reflexivity|]. split; [reflexivity|]. split.
  - cbn. destruct (SinGen.timer s); reflexivity.
  - repeat split.
Qed.

Lemma positive_command_retunes_witness :
  exists s',
    SinGen.loop 256 (Some (Fin 440)) stopped = Ok s' /\
    SinGen.targetFrequency s' = Fin 440 /\
    SinGen.updatePeriodMicros s' = 8 /\
    SinGen.running s' = true /\
    SinGen.dac s' = [128] /\
    SinGen.lutIndex s' = 0.
Proof.
  destruct (positive_command_retunes 256 (Fin 440) stopped 8) as (s' & L & T & P & Tm & _ & D & I).
  - reflexivity.
  - vm_compute. reflexivity.
  - reflexivity.
  - exists s'. split; [exact L|]. split; [exact T|]. split; [exact P|].
    split; [unfold SinGen.running; rewrite Tm; reflexivity|].
    split; [exact D | exact I].
Defined.

(** *** The busy-loop sketch *)


Section BusyTable.

Variable LUT_SIZE : Z.
Variable c_sin : fp -> fp.
Hypothesis size_int : 0 < LUT_SIZE < 2 ^ 31.
Hypothesis sin_ok : sine_like c_sin.











End BusyTable.



Section BusyPasses.

Variable LUT_SIZE : Z.
Variable FREQ_HZ : Z.
Hypothesis size_pos : 0 < LUT_SIZE.
Hypothesis freq_pos : 0 < FREQ_HZ.
Hypothesis rate : FREQ_HZ * LUT_SIZE <= 1000000.

(** One pass: a write of the sample at the index, the index one further
    around the table, and the wait between two samples. *)
Lemma busy_loop_pass (b : BusyLoop.state) :
  0 <= BusyLoop.index b < LUT_SIZE ->
  BusyLoop.loop LUT_SIZE FREQ_HZ b =
  Ok (BusyLoop.State (BusyLoop.sineLUT b)
        ((BusyLoop.index b + 1) mod LUT_SIZE)
        (BusyLoop.trace b ++
           [BusyLoop.Write
              (nth (Z.to_nat (BusyLoop.index b)) (BusyLoop.sineLUT b) 0 mod 256);
            BusyLoop.Delay (1000000 / (FREQ_HZ * LUT_SIZE))])).
Proof.
  intros Hb. unfold BusyLoop.loop.
  cbn [BusyLoop.index BusyLoop.sineLUT BusyLoop.trace].
  assert (A : (LUT_SIZE =? 0) = false) by (apply Z.eqb_neq; lia).
  assert (B : BusyLoop.int_range (BusyLoop.index b + 1) = true).
  { unfold BusyLoop.int_range. apply andb_true_intro. split.
    - apply Z.leb_le. lia.
    - apply Z.ltb_lt. nia. }
  rewrite A, B. cbn [orb negb].
  unfold BusyLoop.sample_delay, BusyLoop.int_range.
  assert (P0 : 0 < FREQ_HZ * LUT_SIZE) by nia.
  assert (C1 : (- 2 ^ 31 <=? FREQ_HZ * LUT_SIZE) = true) by (apply Z.leb_le; lia).
  assert (C2 : (FREQ_HZ * LUT_SIZE <? 2 ^ 31) = true) by (apply Z.ltb_lt; lia).
  assert (C3 : (FREQ_HZ * LUT_SIZE =? 0) = false) by (apply Z.eqb_neq; lia).
  rewrite C1, C2, C3. cbn [andb negb bind].
  rewrite Z.quot_div_nonneg by lia.
  rewrite Z.rem_mod_nonneg by lia.
  assert (Q0 : 0 <= 1000000 / (FREQ_HZ * LUT_SIZE)) by (apply Z.div_pos; lia).
  assert (Q1 : 1000000 / (FREQ_HZ * LUT_SIZE) <= 1000000).
  { apply Z.div_le_upper_bound; nia. }
  rewrite (Z.mod_small (1000000 / (FREQ_HZ * LUT_SIZE))) by lia.
  rewrite <- app_assoc. reflexivity.
Qed.

Lemma upcoming_actions_succ (lut : list Z) (c d : Z) (k : nat) :
  0 <= c < LUT_SIZE ->
  upcoming_actions LUT_SIZE lut c d (S k) =
  [BusyLoop.Write (nth (Z.to_nat c) lut 0 mod 256); BusyLoop.Delay d] ++
  upcoming_actions LUT_SIZE lut ((c + 1) mod LUT_SIZE) d k.
Proof.
  intros Hc. unfold upcoming_actions.
  cbn [seq flat_map]. rewrite Z.add_0_r, (Z.mod_small c) by lia.
  cbn [app]. do 2 f_equal.
  rewrite <- seq_shift, flat_map_concat_map, map_map, <- flat_map_concat_map.
  apply flat_map_ext. intros j.
  rewrite Z.add_mod_idemp_l by lia.
  replace (c + 1 + Z.of_nat j) with (c + Z.of_nat (S j)) by lia. reflexivity.
Qed.

Lemma busy_passes (k : nat) :
  forall b : BusyLoop.state,
    0 <= BusyLoop.index b < LUT_SIZE ->
    BusyLoop.passes LUT_SIZE FREQ_HZ k b =
    Ok (BusyLoop.State (BusyLoop.sineLUT b)
          ((BusyLoop.index b + Z.of_nat k) mod LUT_SIZE)
          (BusyLoop.trace b ++
             upcoming_actions LUT_SIZE (BusyLoop.sineLUT b) (BusyLoop.index b)
               (1000000 / (FREQ_HZ * LUT_SIZE)) k)).
Proof.
  induction k as [|k IH]; intros b Hb.
  - cbn [BusyLoop.passes]. unfold upcoming_actions. cbn [seq flat_map].
    rewrite Z.add_0_r, Z.mod_small, app_nil_r by lia.
    destruct b; reflexivity.
  - cbn [BusyLoop.passes]. rewrite (busy_loop_pass b Hb). cbn [bind].
    rewrite IH by (cbn [BusyLoop.index]; apply Z.mod_pos_bound; lia).
    cbn [BusyLoop.index BusyLoop.sineLUT BusyLoop.trace].
    rewrite (upcoming_actions_succ _ _ _ k Hb), Z.add_mod_idemp_l by lia.
    rewrite <- app_assoc.
    replace (BusyLoop.index b + 1 + Z.of_nat k)
      with (BusyLoop.index b + Z.of_nat (S k)) by lia.
    reflexivity.
Qed.

End BusyPasses.

(** X15. The busy loop plays the table as the timer does: [k] passes in
    a row write the [k] samples that follow the index, in order and
    around the end of the table, each followed by the same wait of
    [1000000 / (FREQ_HZ * LUT_SIZE)] microseconds, and leave the index
    [k] places further on; the table is not touched. *)
Theorem busy_loop_plays_the_table
    (size freq : Z) (k : nat) (b : BusyLoop.state) :
  0 < freq -> freq * size <= 1000000 ->
  0 <= BusyLoop.index b < size ->
  BusyLoop.passes size freq k b =
  Ok (BusyLoop.State (BusyLoop.sineLUT b)
        ((BusyLoop.index b + Z.of_nat k) mod size)
        (BusyLoop.trace b ++
           upcoming_actions size (BusyLoop.sineLUT b) (BusyLoop.index b)
             (1000000 / (freq * size)) k)).
Proof.
  intros Hf Hr Hb. apply busy_passes; try assumption. lia.
Qed.

Lemma busy_loop_plays_the_table_witness :
  BusyLoop.passes 4 100 5 (BusyLoop.State [128; 255; 128; 0] 2 []) =
  Ok (BusyLoop.State [128; 255; 128; 0] 3
        [BusyLoop.Write 128; BusyLoop.Delay 2500; BusyLoop.Write 0; BusyLoop.Delay 2500;
         BusyLoop.Write 128; BusyLoop.Delay 2500; BusyLoop.Write 255; BusyLoop.Delay 2500;
         BusyLoop.Write 128; BusyLoop.Delay 2500]).
Proof.
  apply (busy_loop_plays_the_table 4 100 5 (BusyLoop.State [128; 255; 128; 0] 2 [])).
  - reflexivity.
  - discriminate.
  - split; [discriminate | reflexivity].
Defined.
